(** * slack-polls: the group reconciliation of [main.go], embedded and verified

    The poll message keeps four display strings, one per choice.  A click on
    a button calls [updateGroups], which moves the clicking user's mention
    between those strings.  This file embeds the string helpers, the update
    itself and the two HTTP handlers that drive it, and proves the properties
    the specification states about them.

    Go values are modelled as follows: a [string] is a Rocq [string] (a byte
    sequence), an [int] is a [Z], a slice is a [list] read with [!!] and
    written with [<[i:=x]>] behind an explicit bounds check, and a run-time
    panic is the [None] of an [option].  [updateGroups] writes into the
    slice it is given and returns that slice; its only caller passes a slice
    built for the call, so the function is modelled by its result.

    The repository has a second variant of [main.go] that adds socket-mode
    handlers; [appendUser], [updateGroups], [contains] and [remove] are the
    same text in both.  The second part of the file, "Further properties of
    the code", adds the socket-mode interaction handler and the reading of
    the environment in both variants of [main]. *)

From Stdlib Require Import ZArith Ascii.
From stdpp Require Import base option list strings gmap.

Local Open Scope Z_scope.

(** ** The parts of Go's [strings] package the program calls *)

Module gostrings.

(** [push c l] puts the byte [c] in front of the first element of [l]. *)
Definition push (c : ascii) (l : list string) : list string :=
  match l with
  | [] => [String c ""]
  | t :: ts => String c t :: ts
  end.

(** The loop of [strings.Split] for a non-empty separator: find the leftmost
    occurrence of [sep], cut the text before it off as one element, continue
    behind the separator; what is left at the end is the last element.
    [skip] counts the bytes of a separator that was just matched and is
    still to be stepped over. *)
Fixpoint splitFrom (sep : string) (skip : nat) (s : string) : list string :=
  match s with
  | EmptyString => [EmptyString]
  | String c rest =>
      match skip with
      | S k => splitFrom sep k rest
      | O =>
          if String.prefix sep s
          then EmptyString :: splitFrom sep (String.length sep - 1) rest
          else push c (splitFrom sep 0 rest)
      end
  end.

(** [strings.Split(s, sep)].  With an empty separator Go cuts after every
    UTF-8 sequence; the program only ever passes [", "], and the empty
    separator is rendered here as a cut after every byte. *)
Definition Split (s sep : string) : list string :=
  match sep with
  | EmptyString => (λ c, String c "") <$> String.list_ascii_of_string s
  | _ => splitFrom sep 0 s
  end.

(** [strings.Join(elems, sep)]. *)
Fixpoint Join (elems : list string) (sep : string) : string :=
  match elems with
  | [] => ""
  | [a] => a
  | a :: rest => a +:+ sep +:+ Join rest sep
  end.

(** [strings.Contains(s, substr)]: does [substr] occur in [s]?  The program
    does not call it; the statements below use it to speak about mentions
    that contain the separator. *)
Fixpoint Contains (s substr : string) : bool :=
  match s with
  | EmptyString => String.prefix substr s
  | String _ rest => String.prefix substr s || Contains rest substr
  end.

End gostrings.

Import gostrings.

(** ** Slices *)

(** [l[i]] for an [int] index: out of range is a panic. *)
Definition index_get {A} (l : list A) (i : Z) : option A :=
  if bool_decide (0 ≤ i < Z.of_nat (length l)) then l !! Z.to_nat i else None.

(** [l[i] = x] for an [int] index: out of range is a panic. *)
Definition index_set {A} (l : list A) (i : Z) (x : A) : option (list A) :=
  if bool_decide (0 ≤ i < Z.of_nat (length l))
  then Some (<[Z.to_nat i := x]> l) else None.

(** ** The helpers of [main.go] *)

(** [appendUser]: the sentinel [":"] is replaced outright, anything else gets
    the separator and the user appended. *)
Definition appendUser (text userID : string) : string :=
  if String.eqb text ":" then userID else text +:+ ", " +:+ userID.

(** [contains]: linear search, [true] at the first equal element. *)
Fixpoint contains (text : string) (arr : list string) : bool :=
  match arr with
  | [] => false
  | s :: rest => if String.eqb text s then true else contains text rest
  end.

(** The loop of [remove]: the position of the first element equal to [text],
    counted from [i]; Go's zero value [0] when there is none. *)
Fixpoint removeIndex (text : string) (arr : list string) (i : nat) : nat :=
  match arr with
  | [] => 0%nat
  | s :: rest => if String.eqb text s then i else removeIndex text rest (S i)
  end.

(** [remove]: [append(arr[:index], arr[index+1:]...)].  The slice expression
    [arr[index+1:]] panics when [index+1] exceeds the length, which happens
    exactly for the empty slice. *)
Definition remove (text : string) (arr : list string) : option (list string) :=
  let index := removeIndex text arr 0 in
  if bool_decide (index + 1 ≤ length arr)%nat
  then Some (take index arr ++ drop (index + 1) arr)
  else None.

(** ** [updateGroups] *)

(** The first loop: [parsedGroups[i] = strings.Split(groups[i], ", ")], and
    [userIndex = i] whenever group [i] contains the user.  There is no
    [break]: a later group overwrites an earlier one. *)
Fixpoint scanGroups (user : string) (groups : list string) (i : nat)
    (parsedGroups : list (list string)) (userIndex : Z)
    : option (list (list string) * Z) :=
  match groups with
  | [] => Some (parsedGroups, userIndex)
  | g :: rest =>
      parsedGroups ← index_set parsedGroups (Z.of_nat i) (Split g ", ");
      p ← index_get parsedGroups (Z.of_nat i);
      scanGroups user rest (S i) parsedGroups
        (if contains user p then Z.of_nat i else userIndex)
  end.

(** The second loop: every group is joined again, and an empty result is
    replaced by the sentinel. *)
Fixpoint rejoinGroups (parsedGroups : list (list string)) (i : nat)
    (groups : list string) : option (list string) :=
  match parsedGroups with
  | [] => Some groups
  | p :: rest =>
      groups ← index_set groups (Z.of_nat i) (Join p ", ");
      g ← index_get groups (Z.of_nat i);
      groups ← (if String.eqb g "" then index_set groups (Z.of_nat i) ":"
                else Some groups);
      rejoinGroups rest (S i) groups
  end.

(** The state after the first loop of [updateGroups]. *)
Definition scanned (user : string) (groups : list string)
    : option (list (list string) * Z) :=
  scanGroups user groups 0 (replicate 4 []) (-1).

(** [userIndex] after the first loop: the group the user is taken out of,
    the [current] group of the specification. *)
Definition currentGroup (user : string) (groups : list string) : option Z :=
  snd <$> scanned user groups.

Definition updateGroups (user : string) (index : Z) (groups : list string)
    : option (list string) :=
  '(parsedGroups, userIndex) ← scanned user groups;
  if bool_decide (userIndex = -1) then
    g ← index_get groups index;
    index_set groups index (appendUser g user)
  else
    p ← index_get parsedGroups userIndex;
    p ← remove user p;
    parsedGroups ← index_set parsedGroups userIndex p;
    groups ← rejoinGroups parsedGroups 0 groups;
    if bool_decide (index ≠ userIndex) then
      g ← index_get groups index;
      index_set groups index (appendUser g user)
    else Some groups.

Example updateGroups_fresh :
  updateGroups "Bob" 1 [":"; ":"; ":"; ":"] = Some [":"; "Bob"; ":"; ":"].
Proof. reflexivity. Qed.

Example updateGroups_toggle :
  updateGroups "Bob" 1 [":"; "Bob"; ":"; ":"] = Some [":"; ":"; ":"; ":"].
Proof. reflexivity. Qed.

Example updateGroups_move :
  updateGroups "Alice" 2 ["Alice"; ":"; ":"; ":"] = Some [":"; ":"; "Alice"; ":"].
Proof. reflexivity. Qed.

Example updateGroups_keep_others :
  updateGroups "Alice" 1 ["Alice, Bob"; ":"; ":"; ":"]
  = Some ["Bob"; "Alice"; ":"; ":"].
Proof. reflexivity. Qed.

Example updateGroups_last_wins :
  updateGroups "X" 0 ["X"; "X"; ":"; ":"] = Some ["X, X"; ":"; ":"; ":"].
Proof. reflexivity. Qed.

Example updateGroups_five_groups :
  updateGroups "X" 0 [":"; ":"; ":"; ":"; ":"] = None.
Proof. reflexivity. Qed.

Example updateGroups_index_too_large :
  updateGroups "X" 4 [":"; ":"; ":"; ":"] = None.
Proof. reflexivity. Qed.

Example updateGroups_index_negative :
  updateGroups "X" (-1) [":"; ":"; ":"; ":"] = None.
Proof. reflexivity. Qed.

Example Split_examples :
  Split "" ", " = [""]
  ∧ Split "a, b, c" ", " = ["a"; "b"; "c"]
  ∧ Split ", " ", " = [""; ""]
  ∧ Split "a,, b" ", " = ["a,"; "b"]
  ∧ Split "a,b" ", " = ["a,b"]
  ∧ Split "a--b--" "--" = ["a"; "b"; ""].
Proof. by repeat split. Qed.

Example Join_examples :
  Join [] ", " = "" ∧ Join ["a"] ", " = "a" ∧ Join ["a"; "b"] ", " = "a, b".
Proof. by repeat split. Qed.

Example remove_examples :
  remove "b" ["a"; "b"; "c"; "b"] = Some ["a"; "c"; "b"]
  ∧ remove "x" ["a"; "b"] = Some ["b"]
  ∧ remove "x" [] = None.
Proof. by repeat split. Qed.

(** ** [Split] and [Join] at the separator [", "] *)

Section split_join.

Implicit Types (s r t : string) (c : ascii) (ts : list string).

Lemma append_cons c s r : String c s +:+ r = String c (s +:+ r).
Proof. done. Qed.

Lemma append_nil_l s : "" +:+ s = s.
Proof. done. Qed.

Lemma append_nil_r s : s +:+ "" = s.
Proof. induction s as [|c s IH]; [done|]. by rewrite append_cons, IH. Qed.

Lemma append_assoc s r t : (s +:+ r) +:+ t = s +:+ r +:+ t.
Proof. induction s as [|c s IH]; [done|]. by rewrite !append_cons, IH. Qed.

Lemma append_empty s r : s +:+ r = "" → s = "" ∧ r = "".
Proof. destruct s; [done|]. rewrite append_cons. discriminate. Qed.

Lemma prefix_nil s : String.prefix "" s = true.
Proof. by destruct s. Qed.

Lemma prefix_cons c s c' s' :
  String.prefix (String c s) (String c' s')
  = if ascii_dec c c' then String.prefix s s' else false.
Proof. done. Qed.

Lemma prefix_sep r : String.prefix ", " (String "," (String " " r)) = true.
Proof.
  rewrite !prefix_cons, prefix_nil.
  destruct (ascii_dec "," ","); [|done]. by destruct (ascii_dec " " " ").
Qed.

(** What it means for a string to start with the separator. *)
Lemma prefix_sep_inv c r :
  String.prefix ", " (String c r) = true →
  c = ","%char ∧ ∃ r', r = String " " r'.
Proof.
  rewrite prefix_cons. destruct (ascii_dec "," c) as [<-|]; [|discriminate].
  destruct r as [|c' r']; [discriminate|]. rewrite prefix_cons.
  destruct (ascii_dec " " c') as [<-|]; [|discriminate]. eauto.
Qed.

Lemma prefix_sep_comma c r :
  c ≠ " "%char → String.prefix ", " (String "," (String c r)) = false.
Proof.
  intros Hc. rewrite !prefix_cons. destruct (ascii_dec "," ","); [|done].
  by destruct (ascii_dec " " c) as [<-|].
Qed.

(** The three equations [Split] obeys at this separator. *)
Lemma Split_empty : Split "" ", " = [""].
Proof. done. Qed.

Lemma Split_sep r : Split (String "," (String " " r)) ", " = "" :: Split r ", ".
Proof. unfold Split. cbn [splitFrom]. by rewrite prefix_sep. Qed.

Lemma Split_char c r :
  String.prefix ", " (String c r) = false →
  Split (String c r) ", " = push c (Split r ", ").
Proof. intros H. unfold Split. cbn [splitFrom]. by rewrite H. Qed.

Lemma split_ind (P : string → Prop) :
  P "" →
  (∀ r, P r → P (String "," (String " " r))) →
  (∀ c r, String.prefix ", " (String c r) = false → P r → P (String c r)) →
  ∀ s, P s.
Proof.
  intros Hnil Hsep Hchar s.
  induction s as [s IH] using
    (well_founded_induction (well_founded_ltof _ String.length)).
  destruct s as [|c s]; [done|].
  destruct (String.prefix ", " (String c s)) eqn:E.
  - apply prefix_sep_inv in E as [-> [r' ->]].
    apply Hsep, IH. unfold ltof. cbn. lia.
  - apply Hchar; [done|]. apply IH. unfold ltof. cbn. lia.
Qed.

Lemma Split_not_nil s : Split s ", " ≠ [].
Proof.
  induction s as [|r IH|c r E IH] using split_ind;
    [done|by rewrite Split_sep|].
  rewrite Split_char by done. by destruct (Split r ", ").
Qed.

Lemma Join_push c ts : ts ≠ [] → Join (push c ts) ", " = String c (Join ts ", ").
Proof. destruct ts as [|t [|t' ts]]; done. Qed.

Lemma Join_cons t ts :
  ts ≠ [] → Join (t :: ts) ", " = t +:+ ", " +:+ Join ts ", ".
Proof. by destruct ts. Qed.

(** Joining what was split gives the string back, whatever the string. *)
Lemma Join_Split s : Join (Split s ", ") ", " = s.
Proof.
  induction s as [|r IH|c r E IH] using split_ind; [done| |].
  - rewrite Split_sep, Join_cons by apply Split_not_nil. by rewrite IH.
  - rewrite Split_char, Join_push by (done || apply Split_not_nil).
    by rewrite IH.
Qed.

(** The first element of a split starts like the string. *)
Lemma Split_head s c t ts :
  Split s ", " = String c t :: ts → ∃ r, s = String c r.
Proof.
  destruct s as [|c' r]; [done|].
  destruct (String.prefix ", " (String c' r)) eqn:E.
  - apply prefix_sep_inv in E as [-> [r' ->]]. by rewrite Split_sep.
  - rewrite Split_char by done.
    destruct (Split r ", "); cbn; intros [= -> _ _]; eauto.
Qed.

(** No element of a split contains the separator. *)
Lemma Split_sep_free s : Forall (λ t, Contains t ", " = false) (Split s ", ").
Proof.
  induction s as [|r IH|c r E IH] using split_ind.
  - by repeat constructor.
  - rewrite Split_sep. by constructor.
  - rewrite Split_char by done.
    destruct (Split r ", ") as [|t ts] eqn:Er; [by destruct (Split_not_nil r)|].
    apply Forall_cons in IH as [Ht Hts]. cbn [push]. constructor; [|done].
    cbn [Contains]. rewrite Ht, orb_false_r.
    destruct (String.prefix ", " (String c t)) eqn:E'; [|done].
    apply prefix_sep_inv in E' as [-> [t' ->]].
    apply Split_head in Er as [r' ->]. by rewrite prefix_sep in E.
Qed.

(** A string without separator is its own single element: the loop of
    [Split] finds no occurrence and returns the rest. *)
Lemma Split_no_sep s : Contains s ", " = false → Split s ", " = [s].
Proof.
  induction s as [|c s IH]; [done|]. cbn [Contains].
  intros [E H]%orb_false_iff. rewrite Split_char, IH; done.
Qed.

(** One turn of the loop of [Split]: the leftmost separator ends the first
    element, the rest is split in the same way. *)
Lemma Split_cut t s :
  Contains t ", " = false →
  Split (t +:+ ", " +:+ s) ", " = t :: Split s ", ".
Proof.
  induction t as [|c t IH]; [intros _; apply Split_sep|]. cbn [Contains].
  intros [E H]%orb_false_iff. rewrite append_cons, Split_char, IH; [done..|].
  destruct (String.prefix ", " (String c (t +:+ ", " +:+ s))) eqn:E'; [|done].
  apply prefix_sep_inv in E' as [-> [r' Hr]].
  destruct t as [|c' t].
  - apply (f_equal (String.get 0)) in Hr. discriminate Hr.
  - rewrite append_cons in Hr. injection Hr as -> _.
    by rewrite prefix_sep in E.
Qed.

Lemma Split_Join ts :
  ts ≠ [] → Forall (λ t, Contains t ", " = false) ts →
  Split (Join ts ", ") ", " = ts.
Proof.
  induction ts as [|t ts IH]; [done|]. intros _ [Ht Hts]%Forall_cons.
  destruct ts as [|t' ts]; [by apply Split_no_sep|].
  rewrite Join_cons, Split_cut, IH; done.
Qed.

(** Appending the separator and a string appends the elements of that
    string. *)
Lemma Split_append s r :
  Split (s +:+ ", " +:+ r) ", " = Split s ", " ++ Split r ", ".
Proof.
  rewrite <-(Join_Split s) at 1.
  pose proof (Split_not_nil s) as Hne. pose proof (Split_sep_free s) as Hfree.
  induction (Split s ", ") as [|t ts IH]; [done|].
  apply Forall_cons in Hfree as [Ht Hts].
  destruct ts as [|t' ts]; [by apply Split_cut|].
  rewrite Join_cons, append_assoc, append_assoc, Split_cut by done.
  cbn [app]. f_equal. by apply IH.
Qed.

(** The only lists that join to the empty string. *)
Lemma Join_empty ts : Join ts ", " = "" → ts = [] ∨ ts = [""].
Proof.
  destruct ts as [|t [|t' ts]]; [by left|cbn [Join]; intros ->; by right|].
  rewrite Join_cons by done. intros [_ H]%append_empty. discriminate.
Qed.

End split_join.

(** ** The two loops of [updateGroups] in closed form *)

(** The member tokens of a display string, as [updateGroups] parses them. *)
Abbreviation tokens g := (Split g ", ") (only parsing).

(** [userIndex] as the first loop leaves it, without the parsed groups. *)
Fixpoint scanIndex (user : string) (groups : list string) (i : nat)
    (userIndex : Z) : Z :=
  match groups with
  | [] => userIndex
  | g :: rest =>
      scanIndex user rest (S i)
        (if contains user (tokens g) then Z.of_nat i else userIndex)
  end.

(** What the second loop writes for one parsed group. *)
Definition rejoin (p : list string) : string :=
  if String.eqb (Join p ", ") "" then ":" else Join p ", ".

Section loops.

Implicit Types (user g : string) (groups : list string) (index : Z).
Implicit Types (parsed : list (list string)) (i k : nat).

Lemma index_set_nat {A} (l : list A) i x :
  (i < length l)%nat → index_set l (Z.of_nat i) x = Some (<[i:=x]> l).
Proof.
  intros Hi. unfold index_set. rewrite bool_decide_true by lia.
  by rewrite Nat2Z.id.
Qed.

Lemma index_get_nat {A} (l : list A) i : index_get l (Z.of_nat i) = l !! i.
Proof.
  unfold index_get. case_bool_decide; rewrite ?Nat2Z.id; [done|].
  symmetry. apply lookup_ge_None. lia.
Qed.

Lemma index_get_Some {A} (l : list A) index x :
  index_get l index = Some x ↔ 0 ≤ index ∧ l !! Z.to_nat index = Some x.
Proof.
  unfold index_get. case_bool_decide as H; split.
  - intros ?. split; [lia|done].
  - by intros [_ ?].
  - done.
  - intros [? Hx]. apply lookup_lt_Some in Hx. lia.
Qed.

Lemma index_set_Some {A} (l : list A) index x :
  0 ≤ index < Z.of_nat (length l) →
  index_set l index x = Some (<[Z.to_nat index:=x]> l).
Proof. intros H. unfold index_set. by rewrite bool_decide_true. Qed.

Lemma scanGroups_spec user groups i parsed userIndex :
  (i + length groups ≤ length parsed)%nat →
  scanGroups user groups i parsed userIndex
  = Some (take i parsed ++ ((λ g, tokens g) <$> groups)
            ++ drop (i + length groups) parsed,
          scanIndex user groups i userIndex).
Proof.
  revert i parsed userIndex.
  induction groups as [|g rest IH]; intros i parsed userIndex Hlen;
    cbn [scanGroups scanIndex length fmap list_fmap] in *.
  - rewrite Nat.add_0_r. cbn [app]. by rewrite take_drop.
  - rewrite index_set_nat by lia. cbn [mbind option_bind].
    rewrite index_get_nat, list_lookup_insert_eq by lia. cbn [mbind option_bind].
    rewrite IH by (rewrite length_insert; lia). do 2 f_equal.
    rewrite (take_S_r _ _ (tokens g)) by (apply list_lookup_insert_eq; lia).
    rewrite take_insert_ge, <-app_assoc by lia. cbn [app]. do 3 f_equal.
    rewrite drop_insert_lt by lia. f_equal. lia.
Qed.

Lemma rejoinGroups_spec parsed i groups :
  (i + length parsed ≤ length groups)%nat →
  rejoinGroups parsed i groups
  = Some (take i groups ++ (rejoin <$> parsed)
            ++ drop (i + length parsed) groups).
Proof.
  revert i groups.
  induction parsed as [|p rest IH]; intros i groups Hlen;
    cbn [rejoinGroups length fmap list_fmap] in *.
  - rewrite Nat.add_0_r. cbn [app]. by rewrite take_drop.
  - rewrite index_set_nat by lia. cbn [mbind option_bind].
    rewrite index_get_nat, list_lookup_insert_eq by lia. cbn [mbind option_bind].
    assert ((if String.eqb (Join p ", ") ""
             then index_set (<[i:=Join p ", "]> groups) (Z.of_nat i) ":"
             else Some (<[i:=Join p ", "]> groups))
            = Some (<[i:=rejoin p]> groups)) as ->.
    { unfold rejoin. destruct (String.eqb (Join p ", ") ""); [|done].
      rewrite index_set_nat by (rewrite length_insert; lia).
      by rewrite list_insert_insert_eq. }
    cbn [mbind option_bind].
    rewrite IH by (rewrite length_insert; lia). f_equal.
    rewrite (take_S_r _ _ (rejoin p)) by (apply list_lookup_insert_eq; lia).
    rewrite take_insert_ge, <-app_assoc by lia. cbn [app]. do 3 f_equal.
    rewrite drop_insert_lt by lia. f_equal. lia.
Qed.

(** Joining a split string again changes the empty string only. *)
Lemma rejoin_tokens g : rejoin (tokens g) = if String.eqb g "" then ":" else g.
Proof. unfold rejoin. by rewrite Join_Split. Qed.

Lemma rejoin_not_empty p : rejoin p ≠ "".
Proof.
  unfold rejoin. destruct (String.eqb (Join p ", ") "") eqn:E; [done|].
  by apply String.eqb_neq in E.
Qed.

(** The first loop ends either with the index it started with, when no
    group contains the user, or with the last group that does. *)
Lemma scanIndex_spec user groups i userIndex :
  (Forall (λ g, contains user (tokens g) = false) groups
   ∧ scanIndex user groups i userIndex = userIndex)
  ∨ (∃ k g, groups !! k = Some g ∧ contains user (tokens g) = true
       ∧ Forall (λ g, contains user (tokens g) = false) (drop (S k) groups)
       ∧ scanIndex user groups i userIndex = Z.of_nat (i + k)).
Proof.
  revert i userIndex. induction groups as [|g rest IH]; intros i userIndex.
  { left. by split. }
  cbn [scanIndex].
  destruct (IH (S i) (if contains user (tokens g) then Z.of_nat i else userIndex))
    as [[Hall Heq]|(k & g' & Hk & Hg' & Hlater & Heq)].
  - destruct (contains user (tokens g)) eqn:Hg.
    + right. exists 0%nat, g. rewrite Nat.add_0_r. by repeat split.
    + left. split; [by constructor|done].
  - right. exists (S k), g'. repeat split; [done..|].
    rewrite Heq. f_equal. lia.
Qed.

Lemma scanned_four user groups :
  length groups = 4%nat →
  scanned user groups
  = Some ((λ g, tokens g) <$> groups, scanIndex user groups 0 (-1)).
Proof.
  intros Hlen. unfold scanned. rewrite scanGroups_spec by (cbn; lia).
  rewrite Hlen. cbn [take replicate drop Nat.add]. by rewrite app_nil_r.
Qed.

End loops.

(** ** [contains] and [remove] *)

Section remove.

Implicit Types (text : string) (arr pre post : list string).

Lemma contains_elem_of text arr : contains text arr = true ↔ text ∈ arr.
Proof.
  induction arr as [|s arr IH]; cbn [contains].
  - split; [done|]. by intros ?%elem_of_nil.
  - rewrite elem_of_cons. destruct (String.eqb_spec text s) as [->|Hne].
    + split; [by left|done].
    + rewrite IH. split; [by right|]. by intros [?|?].
Qed.

Lemma contains_false text arr : contains text arr = false ↔ text ∉ arr.
Proof.
  rewrite <-contains_elem_of. by destruct (contains text arr).
Qed.

Lemma contains_app text pre post :
  contains text (pre ++ post) = contains text pre || contains text post.
Proof.
  induction pre as [|s pre IH]; [done|]. cbn [app contains].
  by destruct (String.eqb text s).
Qed.

(** The loop of [remove] stops at the first element equal to [text]. *)
Lemma removeIndex_first text pre post i :
  contains text pre = false →
  removeIndex text (pre ++ text :: post) i = (i + length pre)%nat.
Proof.
  revert i. induction pre as [|s pre IH]; intros i; cbn [app removeIndex contains length].
  - intros _. rewrite String.eqb_refl. lia.
  - destruct (String.eqb text s); [done|]. intros H. rewrite IH by done. lia.
Qed.

Lemma removeIndex_lt text arr i :
  arr ≠ [] → (removeIndex text arr i < i + length arr)%nat.
Proof.
  revert i. induction arr as [|s arr IH]; [done|]. intros i _.
  cbn [removeIndex length]. destruct (String.eqb text s); [lia|].
  destruct arr as [|s' arr]; [cbn; lia|].
  specialize (IH (S i) ltac:(done)). cbn [length] in *. lia.
Qed.

(** A list that contains [text] splits at its first occurrence. *)
Lemma contains_first text arr :
  contains text arr = true →
  ∃ pre post, arr = pre ++ text :: post ∧ contains text pre = false.
Proof.
  induction arr as [|s arr IH]; [done|]. cbn [contains].
  destruct (String.eqb_spec text s) as [->|Hne].
  - intros _. by exists [], arr.
  - intros (pre & post & -> & Hpre)%IH. exists (s :: pre), post.
    split; [done|]. cbn [contains]. by destruct (String.eqb_spec text s).
Qed.

(** [remove] takes out the first occurrence and nothing else. *)
Lemma remove_first text pre post :
  contains text pre = false →
  remove text (pre ++ text :: post) = Some (pre ++ post).
Proof.
  intros Hpre. unfold remove. rewrite removeIndex_first by done.
  cbn [Nat.add]. rewrite bool_decide_true
    by (rewrite length_app; cbn [length]; lia).
  rewrite take_app_length, drop_app_ge by lia.
  by replace (length pre + 1 - length pre)%nat with 1%nat by lia.
Qed.

(** [remove] panics on the empty slice only. *)
Lemma remove_is_Some text arr : arr ≠ [] → is_Some (remove text arr).
Proof.
  intros Hne. unfold remove.
  pose proof (removeIndex_lt text arr 0 Hne).
  rewrite bool_decide_true by lia. eauto.
Qed.

End remove.

(** ** The paths of [updateGroups] *)

(** The user's mention is one of the member tokens of the display string. *)
Definition inGroup (user g : string) : bool := contains user (tokens g).

Section paths.

Implicit Types (user g : string) (groups : list string) (index : Z) (k : nat).

(** The last group that contains the user is where the first loop ends. *)
Lemma scanIndex_last user groups k g :
  groups !! k = Some g → inGroup user g = true →
  Forall (λ g, inGroup user g = false) (drop (S k) groups) →
  scanIndex user groups 0 (-1) = Z.of_nat k.
Proof.
  intros Hk Hg Hlater.
  destruct (scanIndex_spec user groups 0 (-1))
    as [[Hall _]|(k' & g' & Hk' & Hg' & Hlater' & ->)].
  - rewrite Forall_lookup in Hall. specialize (Hall _ _ Hk).
    unfold inGroup in Hg. congruence.
  - f_equal. cbn [Nat.add].
    destruct (Nat.lt_trichotomy k' k) as [Hlt|[->|Hlt]]; [|done|].
    + rewrite Forall_lookup in Hlater'.
      specialize (Hlater' (k - S k')%nat g). rewrite lookup_drop in Hlater'.
      replace (S k' + (k - S k'))%nat with k in Hlater' by lia.
      specialize (Hlater' Hk). unfold inGroup in Hg. congruence.
    + rewrite Forall_lookup in Hlater.
      specialize (Hlater (k' - S k)%nat g'). rewrite lookup_drop in Hlater.
      replace (S k + (k' - S k))%nat with k' in Hlater by lia.
      specialize (Hlater Hk'). unfold inGroup in Hlater. congruence.
Qed.

Lemma scanIndex_absent user groups :
  Forall (λ g, inGroup user g = false) groups →
  scanIndex user groups 0 (-1) = -1.
Proof.
  intros Hall.
  destruct (scanIndex_spec user groups 0 (-1))
    as [[_ ->]|(k & g & Hk & Hg & _)]; [done|].
  rewrite Forall_lookup in Hall. specialize (Hall _ _ Hk).
  unfold inGroup in Hall. congruence.
Qed.

(** Every list of groups is in one of the two situations. *)
Lemma absent_or_present user groups :
  Forall (λ g, inGroup user g = false) groups
  ∨ ∃ k g, groups !! k = Some g ∧ inGroup user g = true
      ∧ Forall (λ g, inGroup user g = false) (drop (S k) groups).
Proof.
  destruct (scanIndex_spec user groups 0 (-1))
    as [[Hall _]|(k & g & Hk & Hg & Hlater & _)]; [by left|right].
  by exists k, g.
Qed.

(** The user is in no group: the fresh-claim path. *)
Lemma updateGroups_absent user index groups :
  length groups = 4%nat →
  Forall (λ g, inGroup user g = false) groups →
  updateGroups user index groups
  = (g ← index_get groups index; index_set groups index (appendUser g user)).
Proof.
  intros Hlen Hall. unfold updateGroups. rewrite scanned_four by done.
  cbn [mbind option_bind]. by rewrite scanIndex_absent.
Qed.

(** The user is in group [k] and in no later one: the toggle-off and move
    paths. *)
Lemma updateGroups_present user index groups k g :
  length groups = 4%nat →
  groups !! k = Some g → inGroup user g = true →
  Forall (λ g, inGroup user g = false) (drop (S k) groups) →
  updateGroups user index groups
  = (p ← remove user (tokens g);
     let groups' := <[k:=rejoin p]> ((λ g, rejoin (tokens g)) <$> groups) in
     if bool_decide (index ≠ Z.of_nat k) then
       g' ← index_get groups' index;
       index_set groups' index (appendUser g' user)
     else Some groups').
Proof.
  intros Hlen Hk Hg Hlater. unfold updateGroups.
  rewrite scanned_four by done. cbn [mbind option_bind].
  rewrite (scanIndex_last user groups k g) by done.
  pose proof (lookup_lt_Some _ _ _ Hk) as Hlt.
  rewrite bool_decide_false by lia.
  rewrite index_get_nat, list_lookup_fmap, Hk. cbn [fmap option_fmap option_map mbind option_bind].
  destruct (remove user (tokens g)) as [p|]; [|done]. cbn [mbind option_bind].
  rewrite index_set_nat by (rewrite length_fmap; lia). cbn [mbind option_bind].
  rewrite rejoinGroups_spec by (rewrite length_insert, length_fmap; lia).
  rewrite length_insert, length_fmap, Hlen. cbn [take app Nat.add mbind option_bind].
  rewrite drop_ge, app_nil_r by lia.
  by rewrite list_fmap_insert, <-list_fmap_compose.
Qed.

(** With four groups and a valid index no access of [updateGroups] is out
    of range, and [remove] is never given an empty list. *)
Lemma updateGroups_total user index groups :
  length groups = 4%nat → 0 ≤ index < 4 →
  ∃ groups', updateGroups user index groups = Some groups'
             ∧ length groups' = 4%nat.
Proof.
  intros Hlen Hindex.
  destruct (absent_or_present user groups)
    as [Hall|(k & g & Hk & Hg & Hlater)].
  - destruct (lookup_lt_is_Some_2 groups (Z.to_nat index)) as [g Hg]; [lia|].
    rewrite updateGroups_absent by done.
    assert (index_get groups index = Some g) as ->
      by (apply index_get_Some; split; [lia|done]).
    cbn [mbind option_bind]. rewrite index_set_Some by lia.
    eexists. split; [done|]. by rewrite length_insert.
  - rewrite (updateGroups_present user index groups k g) by done.
    destruct (remove_is_Some user (tokens g) (Split_not_nil g)) as [p ->].
    cbn [mbind option_bind].
    set (groups1 := <[k:=rejoin p]> ((λ g, rejoin (tokens g)) <$> groups)).
    assert (length groups1 = 4%nat) as Hlen1
      by (unfold groups1; by rewrite length_insert, length_fmap).
    case_bool_decide; [|by exists groups1].
    destruct (lookup_lt_is_Some_2 groups1 (Z.to_nat index)) as [g1 Hg1]; [lia|].
    assert (index_get groups1 index = Some g1) as ->
      by (apply index_get_Some; split; [lia|done]).
    cbn [mbind option_bind]. rewrite index_set_Some by lia.
    eexists. split; [done|]. by rewrite length_insert.
Qed.

End paths.

(** ** Fresh claim *)

(** What a fresh claim leaves behind: the target group holds the claimant,
    alone when the group was the sentinel and behind the separator
    otherwise, and the other three strings are the ones passed in. *)
Definition freshClaimPost (user : string) (index : Z) (groups : list string)
    : Prop :=
  ∃ g groups',
    groups !! Z.to_nat index = Some g
    ∧ updateGroups user index groups = Some groups'
    ∧ length groups' = 4%nat
    ∧ (g = ":" → groups' !! Z.to_nat index = Some user)
    ∧ (g ≠ ":" →
         groups' !! Z.to_nat index = Some (g +:+ ", " +:+ user)
         ∧ tokens (g +:+ ", " +:+ user) = tokens g ++ tokens user)
    ∧ (∀ j, j ≠ Z.to_nat index → groups' !! j = groups !! j).

(** C6.  When the claimant is in none of the four groups, [updateGroups]
    appends the claimant to the target group and returns: a sentinel target
    becomes the claimant alone, any other target gets the separator and the
    claimant appended, so that its tokens are the old ones followed by the
    claimant's, and the other groups are returned as they were.  In
    particular four sentinels, claimant "Bob" and index 1 give
    [":"; "Bob"; ":"; ":"]. *)
Theorem fresh_claim_appends :
  (∀ user index groups,
     length groups = 4%nat → 0 ≤ index < 4 →
     Forall (λ g, inGroup user g = false) groups →
     freshClaimPost user index groups)
  ∧ updateGroups "Bob" 1 [":"; ":"; ":"; ":"] = Some [":"; "Bob"; ":"; ":"].
Proof.
  split; [|reflexivity].
  intros user index groups Hlen Hindex Habsent.
  destruct (lookup_lt_is_Some_2 groups (Z.to_nat index)) as [g Hg]; [lia|].
  exists g, (<[Z.to_nat index:=appendUser g user]> groups).
  split; [done|]. split.
  { rewrite updateGroups_absent by done.
    assert (index_get groups index = Some g) as ->
      by (apply index_get_Some; split; [lia|done]).
    cbn [mbind option_bind]. apply index_set_Some. lia. }
  split; [by rewrite length_insert|].
  unfold appendUser. repeat split.
  - intros ->. rewrite list_lookup_insert_eq by lia. done.
  - rewrite list_lookup_insert_eq by lia.
    by destruct (String.eqb_spec g ":").
  - apply Split_append.
  - intros j Hj. by rewrite list_lookup_insert_ne.
Qed.

Lemma fresh_claim_appends_witness :
  freshClaimPost "Bob" 1 [":"; ":"; ":"; ":"].
Proof.
  apply (proj1 fresh_claim_appends); [reflexivity|lia|].
  repeat constructor.
Defined.

(** ** Which group is [current] *)

(** Follows the specification's words: "the first group in scan order
    containing the user".  The code is [currentGroup]. *)
Definition firstGroupContaining (user : string) (groups : list string)
    : option nat :=
  fst <$> list_find (λ g, inGroup user g = true) groups.

(** The claimant is in more than one of the groups. *)
Definition inSeveralGroups (user : string) (groups : list string) : Prop :=
  ∃ i j gi gj,
    i ≠ j ∧ groups !! i = Some gi ∧ groups !! j = Some gj
    ∧ inGroup user gi = true ∧ inGroup user gj = true.

(** Group [k] is the last one in scan order that contains the claimant. *)
Definition lastGroupContaining (user : string) (groups : list string)
    (k : nat) : Prop :=
  (∃ g, groups !! k = Some g ∧ inGroup user g = true)
  ∧ ∀ j g, (k < j)%nat → groups !! j = Some g → inGroup user g = false.

(** C1, as the code has it.  When the claimant's mention occurs in more than
    one of the four groups, the group taken as [current] is the last group
    in scan order 0 to 3 that contains the claimant, and the call returns
    four groups: no index is out of range and [remove] is given a non-empty
    list. *)
Theorem current_group_is_last user index groups :
  length groups = 4%nat → 0 ≤ index < 4 →
  inSeveralGroups user groups →
  ∃ k, currentGroup user groups = Some (Z.of_nat k)
       ∧ lastGroupContaining user groups k
       ∧ ∃ groups', updateGroups user index groups = Some groups'
                    ∧ length groups' = 4%nat.
Proof.
  intros Hlen Hindex (i & j & gi & gj & _ & Hi & _ & Hgi & _).
  destruct (absent_or_present user groups)
    as [Hall|(k & g & Hk & Hg & Hlater)].
  { rewrite Forall_lookup in Hall. specialize (Hall _ _ Hi). congruence. }
  exists k. split; [|split].
  - unfold currentGroup. rewrite scanned_four by done. cbn.
    by rewrite (scanIndex_last user groups k g).
  - split; [by exists g|]. intros j' g' Hlt Hj'.
    rewrite Forall_lookup in Hlater. apply (Hlater (j' - S k)%nat).
    rewrite lookup_drop. by replace (S k + (j' - S k))%nat with j' by lia.
  - by apply updateGroups_total.
Qed.

Lemma current_group_is_last_witness :
  ∃ k, currentGroup "X" ["X"; "X"; ":"; ":"] = Some (Z.of_nat k)
       ∧ lastGroupContaining "X" ["X"; "X"; ":"; ":"] k
       ∧ ∃ groups', updateGroups "X" 0 ["X"; "X"; ":"; ":"] = Some groups'
                    ∧ length groups' = 4%nat.
Proof.
  apply current_group_is_last; [reflexivity|lia|].
  exists 0%nat, 1%nat, "X", "X". by repeat split.
Defined.

(** C1 as stated fails: with the claimant in groups 0 and 1 the first group
    in scan order is group 0, but [current] is group 1, and a claim on
    index 0 takes the claimant out of group 1 and appends it to group 0
    once more. *)
Lemma current_group_not_first :
  firstGroupContaining "X" ["X"; "X"; ":"; ":"] = Some 0%nat
  ∧ currentGroup "X" ["X"; "X"; ":"; ":"] = Some 1
  ∧ updateGroups "X" 0 ["X"; "X"; ":"; ":"] = Some ["X, X"; ":"; ":"; ":"].
Proof. by vm_compute. Qed.

(** ** Removal *)

(** What the update leaves in group [k], the one the claimant is taken out
    of, when the tokens of that group are [pre], the claimant, [post]: the
    tokens around the first occurrence, joined again in their order. *)
Definition removalPost (user : string) (index : Z) (groups : list string)
    (k : nat) (pre post : list string) : Prop :=
  ∃ groups' g',
    updateGroups user index groups = Some groups'
    ∧ groups' !! k = Some g'
    ∧ g' = rejoin (pre ++ post)
    ∧ (Join (pre ++ post) ", " ≠ "" → tokens g' = pre ++ post)
    ∧ (Join (pre ++ post) ", " = "" → g' = ":").

(** C7.  [remove] deletes the first occurrence of the claimant's token and
    nothing else: the tokens before it and the tokens after it, later
    duplicates included, stay in their order.  In [updateGroups] the chosen
    group is rewritten to exactly these tokens.  In particular
    ["Alice, Bob"; ":"; ":"; ":"], claimant "Alice" and index 1 give
    ["Bob"; "Alice"; ":"; ":"]. *)
Theorem removal_first_occurrence :
  (∀ text pre post,
     contains text pre = false →
     remove text (pre ++ text :: post) = Some (pre ++ post))
  ∧ (∀ user index groups k g pre post,
       length groups = 4%nat → 0 ≤ index < 4 →
       groups !! k = Some g →
       (∀ j g', (k < j)%nat → groups !! j = Some g' → inGroup user g' = false) →
       tokens g = pre ++ user :: post → contains user pre = false →
       removalPost user index groups k pre post)
  ∧ updateGroups "Alice" 1 ["Alice, Bob"; ":"; ":"; ":"]
    = Some ["Bob"; "Alice"; ":"; ":"].
Proof.
  split; [apply remove_first|]. split; [|reflexivity].
  intros user index groups k g pre post Hlen Hindex Hk Hlater Hg Hpre.
  assert (inGroup user g = true) as Hin.
  { unfold inGroup. rewrite Hg, contains_app. cbn [contains].
    by rewrite String.eqb_refl, orb_true_r. }
  assert (Forall (λ g, inGroup user g = false) (drop (S k) groups)) as Hdrop.
  { apply Forall_lookup. intros j g'. rewrite lookup_drop.
    apply Hlater. lia. }
  pose proof (lookup_lt_Some _ _ _ Hk) as Hlt.
  unfold removalPost.
  rewrite (updateGroups_present user index groups k g) by done.
  rewrite Hg, remove_first by done. cbn [mbind option_bind].
  set (groups1 := <[k:=rejoin (pre ++ post)]> _).
  assert (length groups1 = 4%nat) as Hlen1
    by (unfold groups1; by rewrite length_insert, length_fmap).
  assert (groups1 !! k = Some (rejoin (pre ++ post))) as Hk1.
  { unfold groups1. apply list_lookup_insert_eq. rewrite length_fmap. lia. }
  assert (∃ groups',
    (if bool_decide (index ≠ Z.of_nat k)
     then g' ← index_get groups1 index;
          index_set groups1 index (appendUser g' user)
     else Some groups1) = Some groups'
    ∧ groups' !! k = Some (rejoin (pre ++ post))) as (groups' & -> & Hk').
  { case_bool_decide; [|by exists groups1].
    destruct (lookup_lt_is_Some_2 groups1 (Z.to_nat index)) as [g1 Hg1]; [lia|].
    assert (index_get groups1 index = Some g1) as ->
      by (apply index_get_Some; split; [lia|done]).
    cbn [mbind option_bind]. rewrite index_set_Some by lia.
    eexists. split; [done|]. by rewrite list_lookup_insert_ne by lia. }
  exists groups', (rejoin (pre ++ post)). do 3 (split; [done|]).
  unfold rejoin.
  destruct (String.eqb_spec (Join (pre ++ post) ", ") "") as [HJ|HJ].
  { split; [by intros ?|done]. }
  split; [intros _|by intros ?]. apply Split_Join.
  - intros Hnil. by rewrite Hnil in HJ.
  - pose proof (Split_sep_free g) as Hfree. rewrite Hg in Hfree.
    apply Forall_app in Hfree as [Hfpre [_ Hfpost]%Forall_cons].
    by apply Forall_app.
Qed.

Lemma removal_first_occurrence_witness :
  removalPost "Alice" 1 ["Alice, Bob"; ":"; ":"; ":"] 0 [] ["Bob"].
Proof.
  apply (proj1 (proj2 removal_first_occurrence)) with (g := "Alice, Bob");
    try reflexivity; try lia.
  intros [|[|[|[|j]]]] g' Hj Hg'; cbn in Hg'; try lia; try discriminate;
    by injection Hg' as <-.
Defined.

(** ** Well-formed poll messages *)

(** A display string is well formed when it is the sentinel or a joined
    list of non-empty tokens: none of its tokens is empty. *)
Definition wfGroup (g : string) : bool :=
  forallb (λ t, negb (String.eqb t "")) (tokens g).

(** How often the user's mention occurs among the tokens of all groups. *)
Definition occurrences (user : string) (groups : list string) : nat :=
  count_occ String.string_dec (groups ≫= λ g, tokens g) user.

(** A well-formed input of [updateGroups]: four well-formed groups, a target
    index from 0 to 3, and a claimant that is not the sentinel and, as the
    membership invariant of the poll message has it, stands in the message
    at most once. *)
Definition wellFormed (user : string) (index : Z) (groups : list string)
    : Prop :=
  length groups = 4%nat ∧ 0 ≤ index < 4
  ∧ Forall (λ g, wfGroup g = true) groups
  ∧ user ≠ ":" ∧ (occurrences user groups ≤ 1)%nat.

Section well_formed.

Implicit Types (user g : string) (groups : list string) (index : Z) (k : nat).
Implicit Types (p pre post : list string).

Lemma wfGroup_sentinel : wfGroup ":" = true.
Proof. reflexivity. Qed.

Lemma wfGroup_not_empty g : wfGroup g = true → g ≠ "".
Proof. by intros H ->. Qed.

(** The words of the definition: a joined, non-empty list of non-empty
    tokens is well formed. *)
Lemma wfGroup_Join p :
  p ≠ [] → Forall (λ t, t ≠ "" ∧ Contains t ", " = false) p →
  wfGroup (Join p ", ") = true.
Proof.
  intros Hne Hp. unfold wfGroup.
  rewrite Split_Join; [|done|by eapply Forall_impl; [done|intros ? []]].
  apply forallb_forall. intros t Ht%list_elem_of_In.
  rewrite Forall_forall in Hp. destruct (Hp t Ht) as [Hne' _].
  by destruct (String.eqb_spec t "").
Qed.

Lemma count_contains user p :
  contains user p = false ↔ count_occ String.string_dec p user = 0%nat.
Proof.
  by rewrite contains_false, list_elem_of_In,
    (count_occ_not_In String.string_dec).
Qed.

Lemma count_contains_pos user p :
  contains user p = true ↔ (0 < count_occ String.string_dec p user)%nat.
Proof.
  rewrite contains_elem_of, list_elem_of_In,
    (count_occ_In String.string_dec).
  lia.
Qed.

Lemma occurrences_cons user g groups :
  occurrences user (g :: groups)
  = (count_occ String.string_dec (tokens g) user + occurrences user groups)%nat.
Proof. unfold occurrences. cbn [mbind list_bind]. apply count_occ_app. Qed.

Lemma occurrences_app user groups1 groups2 :
  occurrences user (groups1 ++ groups2)
  = (occurrences user groups1 + occurrences user groups2)%nat.
Proof.
  induction groups1 as [|g groups1 IH]; [done|].
  cbn [app]. rewrite !occurrences_cons, IH. lia.
Qed.

Lemma occurrences_zero user groups :
  occurrences user groups = 0%nat
  ↔ Forall (λ g, inGroup user g = false) groups.
Proof.
  induction groups as [|g groups IH]; [by split|].
  rewrite occurrences_cons, Forall_cons, <-IH. unfold inGroup.
  rewrite count_contains. lia.
Qed.

(** A claimant that stands in the message at most once and is in group [k]
    is there once, and in no other group. *)
Lemma present_once user groups k g :
  (occurrences user groups ≤ 1)%nat →
  groups !! k = Some g → inGroup user g = true →
  ∃ pre post,
    tokens g = pre ++ user :: post
    ∧ contains user pre = false ∧ contains user post = false
    ∧ ∀ j g', j ≠ k → groups !! j = Some g' → inGroup user g' = false.
Proof.
  intros Hocc Hk Hg.
  rewrite <-(take_drop_middle _ _ _ Hk), occurrences_app, occurrences_cons
    in Hocc.
  destruct (contains_first _ _ Hg) as (pre & post & Hsplit & Hpre).
  exists pre, post. rewrite Hsplit, count_occ_app in Hocc.
  cbn [count_occ] in Hocc. destruct (String.string_dec user user); [|done].
  split; [done|]. split; [done|]. split; [apply count_contains; lia|].
  intros j g' Hj Hg'.
  assert (occurrences user (take k groups) = 0%nat) as H1 by lia.
  assert (occurrences user (drop (S k) groups) = 0%nat) as H2 by lia.
  rewrite occurrences_zero, Forall_lookup in H1, H2.
  destruct (decide (j < k)%nat).
  - apply (H1 j). by rewrite lookup_take_lt.
  - apply (H2 (j - S k)%nat). rewrite lookup_drop.
    by replace (S k + (j - S k))%nat with j by lia.
Qed.

(** Joining a group again does not bring the claimant in. *)
Lemma inGroup_rejoin_tokens user g :
  user ≠ ":" → inGroup user g = false →
  inGroup user (rejoin (tokens g)) = false.
Proof.
  intros Hu Hg. rewrite rejoin_tokens. destruct (String.eqb g ""); [|done].
  unfold inGroup. cbn. by destruct (String.eqb_spec user ":").
Qed.

Lemma tokens_rejoin p :
  Forall (λ t, Contains t ", " = false) p →
  rejoin p = ":" ∨ tokens (rejoin p) = p.
Proof.
  intros Hp. unfold rejoin.
  destruct (String.eqb_spec (Join p ", ") "") as [HJ|HJ]; [by left|right].
  apply Split_Join; [|done]. intros ->. done.
Qed.

Lemma inGroup_rejoin user p :
  user ≠ ":" → Forall (λ t, Contains t ", " = false) p →
  contains user p = false → inGroup user (rejoin p) = false.
Proof.
  intros Hu Hp Hc. unfold inGroup.
  destruct (tokens_rejoin p Hp) as [->| ->]; [|done].
  cbn. by destruct (String.eqb_spec user ":").
Qed.

(** The tokens of a group the claimant was appended to. *)
Lemma tokens_appendUser g user :
  tokens (appendUser g user)
  = (if String.eqb g ":" then [] else tokens g) ++ tokens user.
Proof.
  unfold appendUser. destruct (String.eqb g ":"); [done|apply Split_append].
Qed.

Lemma inGroup_appendUser g user :
  Contains user ", " = false → inGroup user (appendUser g user) = true.
Proof.
  intros Hu. unfold inGroup.
  rewrite tokens_appendUser, contains_app, (Split_no_sep user) by done.
  cbn [contains]. by rewrite String.eqb_refl, orb_true_r.
Qed.

(** A token of a group does not contain the separator. *)
Lemma inGroup_sep_free user g :
  inGroup user g = true → Contains user ", " = false.
Proof.
  intros Hg%contains_elem_of. pose proof (Split_sep_free g) as Hfree.
  rewrite Forall_forall in Hfree. by apply Hfree.
Qed.

End well_formed.

(** ** Toggle-off and move *)

(** The groups after the claimant was taken out of group [k], whose
    remaining tokens are [p], and every group was joined again. *)
Definition rejoined (groups : list string) (k : nat) (p : list string)
    : list string :=
  <[k:=rejoin p]> ((λ g, rejoin (tokens g)) <$> groups).

Section rejoined.

Implicit Types (user g : string) (groups : list string) (index : Z) (k : nat).
Implicit Types (p pre post : list string).

Lemma length_rejoined groups k p : length (rejoined groups k p) = length groups.
Proof. unfold rejoined. by rewrite length_insert, length_fmap. Qed.

Lemma rejoined_lookup_eq groups k p :
  (k < length groups)%nat → rejoined groups k p !! k = Some (rejoin p).
Proof.
  intros Hk. unfold rejoined. apply list_lookup_insert_eq.
  by rewrite length_fmap.
Qed.

(** Another group is changed only when it is the empty string. *)
Lemma rejoined_lookup_ne groups k p j :
  j ≠ k →
  rejoined groups k p !! j
  = (λ g, if String.eqb g "" then ":" else g) <$> groups !! j.
Proof.
  intros Hj. unfold rejoined.
  rewrite list_lookup_insert_ne, list_lookup_fmap by done.
  destruct (groups !! j) as [g|]; [|done].
  cbn [fmap option_fmap option_map]. by rewrite rejoin_tokens.
Qed.

Lemma rejoined_lookup_wf groups k p j :
  j ≠ k → Forall (λ g, wfGroup g = true) groups →
  rejoined groups k p !! j = groups !! j.
Proof.
  intros Hj Hwf. rewrite rejoined_lookup_ne by done.
  destruct (groups !! j) as [g|] eqn:Hg; [|done]. cbn.
  rewrite Forall_lookup in Hwf. apply Hwf, wfGroup_not_empty in Hg.
  by destruct (String.eqb_spec g "").
Qed.

Lemma rejoined_not_empty groups k p :
  (k < length groups)%nat → Forall (λ g, g ≠ "") (rejoined groups k p).
Proof.
  intros Hk. apply Forall_lookup. intros j g Hg.
  destruct (decide (j = k)) as [->|Hj].
  - rewrite rejoined_lookup_eq in Hg by done. injection Hg as <-.
    apply rejoin_not_empty.
  - rewrite rejoined_lookup_ne in Hg by done.
    destruct (groups !! j) as [g0|]; [|done]. injection Hg as <-.
    by destruct (String.eqb_spec g0 "").
Qed.

(** After the removal of its single occurrence the claimant is in no
    group. *)
Lemma rejoined_absent user groups k g pre post :
  user ≠ ":" → groups !! k = Some g →
  tokens g = pre ++ user :: post →
  contains user pre = false → contains user post = false →
  (∀ j g', j ≠ k → groups !! j = Some g' → inGroup user g' = false) →
  Forall (λ g', inGroup user g' = false) (rejoined groups k (pre ++ post)).
Proof.
  intros Hu Hk Hsplit Hpre Hpost Hothers.
  pose proof (lookup_lt_Some _ _ _ Hk) as Hlt.
  apply Forall_lookup. intros j g' Hg'.
  destruct (decide (j = k)) as [->|Hj].
  - rewrite rejoined_lookup_eq in Hg' by done. injection Hg' as <-.
    apply inGroup_rejoin; [done| |by rewrite contains_app, Hpre, Hpost].
    pose proof (Split_sep_free g) as Hfree. rewrite Hsplit in Hfree.
    apply Forall_app in Hfree as [Hfpre [_ Hfpost]%Forall_cons].
    by apply Forall_app.
  - rewrite rejoined_lookup_ne in Hg' by done.
    destruct (groups !! j) as [g0|] eqn:Hg0; [|done]. injection Hg' as <-.
    specialize (Hothers j g0 Hj Hg0).
    rewrite <-rejoin_tokens. by apply inGroup_rejoin_tokens.
Qed.

(** The toggle-off and move paths for a claimant with a single occurrence. *)
Lemma updateGroups_once user index groups k g pre post :
  length groups = 4%nat → groups !! k = Some g →
  tokens g = pre ++ user :: post → contains user pre = false →
  (∀ j g', j ≠ k → groups !! j = Some g' → inGroup user g' = false) →
  updateGroups user index groups
  = (let groups' := rejoined groups k (pre ++ post) in
     if bool_decide (index ≠ Z.of_nat k) then
       g' ← index_get groups' index;
       index_set groups' index (appendUser g' user)
     else Some groups').
Proof.
  intros Hlen Hk Hsplit Hpre Hothers.
  rewrite (updateGroups_present user index groups k g); [| done..| |].
  - by rewrite Hsplit, remove_first.
  - unfold inGroup. rewrite Hsplit, contains_app. cbn [contains].
    by rewrite String.eqb_refl, orb_true_r.
  - apply Forall_lookup. intros j g'. rewrite lookup_drop.
    apply Hothers. lia.
Qed.

End rejoined.

(** What a toggle-off leaves behind: the claimant's token is gone from the
    target group, a group left without tokens is the sentinel, no group is
    the empty string, the claimant is in no group, and the other three
    strings are the ones passed in. *)
Definition toggleOffPost (user : string) (index : Z) (groups : list string)
    : Prop :=
  ∃ groups' g pre post,
    groups !! Z.to_nat index = Some g
    ∧ tokens g = pre ++ user :: post
    ∧ updateGroups user index groups = Some groups'
    ∧ length groups' = 4%nat
    ∧ groups' !! Z.to_nat index = Some (rejoin (pre ++ post))
    ∧ (Join (pre ++ post) ", " ≠ "" →
         tokens (rejoin (pre ++ post)) = pre ++ post)
    ∧ (pre ++ post = [] → groups' !! Z.to_nat index = Some ":")
    ∧ Forall (λ g', inGroup user g' = false) groups'
    ∧ Forall (λ g', g' ≠ "") groups'
    ∧ (∀ j, j ≠ Z.to_nat index → groups' !! j = groups !! j).

(** C4, as the code has it.  For four well-formed groups and a valid index,
    with a claimant whose mention is not the sentinel and stands among the
    tokens of the four groups once only ([wellFormed]), in the group at the
    target index: [updateGroups] removes the claimant from that group and
    the claimant ends up in none of the four groups; a group whose member
    list becomes empty is the sentinel, and no group is the empty string.
    In particular [":"; "Bob"; ":"; ":"], claimant "Bob" and index 1 give
    four sentinels. *)
Theorem toggle_off_removes :
  (∀ user index groups g,
     wellFormed user index groups →
     groups !! Z.to_nat index = Some g → inGroup user g = true →
     toggleOffPost user index groups)
  ∧ updateGroups "Bob" 1 [":"; "Bob"; ":"; ":"] = Some [":"; ":"; ":"; ":"].
Proof.
  split; [|reflexivity].
  intros user index groups g (Hlen & Hindex & Hwf & Hu & Hocc) Hk Hg.
  destruct (present_once user groups _ g Hocc Hk Hg)
    as (pre & post & Hsplit & Hpre & Hpost & Hothers).
  pose proof (lookup_lt_Some _ _ _ Hk) as Hlt.
  exists (rejoined groups (Z.to_nat index) (pre ++ post)), g, pre, post.
  do 2 (split; [done|]). split.
  { rewrite (updateGroups_once user index groups (Z.to_nat index) g pre post)
      by done.
    cbn zeta. by rewrite bool_decide_false by lia. }
  split; [by rewrite length_rejoined|].
  split; [by apply rejoined_lookup_eq|]. split.
  { intros HJ. unfold rejoin.
    destruct (String.eqb_spec (Join (pre ++ post) ", ") ""); [done|].
    pose proof (Split_sep_free g) as Hfree. rewrite Hsplit in Hfree.
    apply Forall_app in Hfree as [Hfpre [_ Hfpost]%Forall_cons].
    apply Split_Join; [|by apply Forall_app]. intros Hnil.
    by rewrite Hnil in HJ. }
  split.
  { intros ->. by rewrite rejoined_lookup_eq. }
  split; [by eapply rejoined_absent|].
  split; [by apply rejoined_not_empty|].
  intros j Hj. by apply rejoined_lookup_wf.
Qed.

Lemma toggle_off_removes_witness :
  toggleOffPost "Bob" 1 [":"; "Bob"; ":"; ":"].
Proof.
  apply (proj1 toggle_off_removes) with (g := "Bob"); [|reflexivity..].
  repeat split; try lia; try discriminate.
  - by repeat constructor.
  - vm_compute. lia.
Defined.

(** C4 as stated fails on well-formed strings that hold the claimant more
    than once, and for the sentinel as claimant.  With the mention twice in
    the target group only the first occurrence goes; with the mention in
    groups 0 and 1 and a click on 1 the claimant stays in group 0; and the
    sentinel is a token of the group it was removed from.  In each case the
    claimant is in a group afterwards. *)
Lemma toggle_off_leaves_claimant :
  (forallb wfGroup ["X, X"; ":"; ":"; ":"] = true
   ∧ currentGroup "X" ["X, X"; ":"; ":"; ":"] = Some 0
   ∧ updateGroups "X" 0 ["X, X"; ":"; ":"; ":"] = Some ["X"; ":"; ":"; ":"]
   ∧ inGroup "X" "X" = true
   ∧ ¬ toggleOffPost "X" 0 ["X, X"; ":"; ":"; ":"])
  ∧ (forallb wfGroup ["X"; "X"; ":"; ":"] = true
     ∧ currentGroup "X" ["X"; "X"; ":"; ":"] = Some 1
     ∧ updateGroups "X" 1 ["X"; "X"; ":"; ":"] = Some ["X"; ":"; ":"; ":"]
     ∧ ¬ toggleOffPost "X" 1 ["X"; "X"; ":"; ":"])
  ∧ (forallb wfGroup [":"; "A"; "B"; "C"] = true
     ∧ currentGroup ":" [":"; "A"; "B"; "C"] = Some 0
     ∧ updateGroups ":" 0 [":"; "A"; "B"; "C"] = Some [":"; "A"; "B"; "C"]
     ∧ inGroup ":" ":" = true
     ∧ ¬ toggleOffPost ":" 0 [":"; "A"; "B"; "C"]).
Proof.
  repeat split; try reflexivity;
    intros (groups' & g & pre & post & _ & _ & Hupd & _ & _ & _ & _ & Habs & _);
    vm_compute in Hupd; injection Hupd as <-;
    apply Forall_cons in Habs as [Habs _]; by vm_compute in Habs.
Qed.

(** What a move leaves behind: the claimant's token is gone from group [k],
    the target group has the claimant as its last token, and the other two
    strings are the ones passed in. *)
Definition movePost (user : string) (index : Z) (groups : list string)
    (k : nat) : Prop :=
  ∃ groups' g pre post target,
    groups !! k = Some g
    ∧ tokens g = pre ++ user :: post
    ∧ groups !! Z.to_nat index = Some target
    ∧ updateGroups user index groups = Some groups'
    ∧ length groups' = 4%nat
    ∧ groups' !! k = Some (rejoin (pre ++ post))
    ∧ inGroup user (rejoin (pre ++ post)) = false
    ∧ groups' !! Z.to_nat index = Some (appendUser target user)
    ∧ tokens (appendUser target user)
      = (if String.eqb target ":" then [] else tokens target) ++ [user]
    ∧ (∀ j, j ≠ k → j ≠ Z.to_nat index → groups' !! j = groups !! j).

(** C5, as the code has it.  For four well-formed groups and a valid index,
    with a claimant whose mention is not the sentinel and stands among the
    tokens of the four groups once only ([wellFormed]), in a group whose
    index differs from the target index: [updateGroups] removes the
    claimant from that group and appends the claimant to the target group.
    In particular ["Alice"; ":"; ":"; ":"], claimant "Alice" and index 2
    give [":"; ":"; "Alice"; ":"]. *)
Theorem move_removes_and_appends :
  (∀ user index groups k g,
     wellFormed user index groups →
     groups !! k = Some g → inGroup user g = true →
     index ≠ Z.of_nat k →
     movePost user index groups k)
  ∧ updateGroups "Alice" 2 ["Alice"; ":"; ":"; ":"]
    = Some [":"; ":"; "Alice"; ":"].
Proof.
  split; [|reflexivity].
  intros user index groups k g (Hlen & Hindex & Hwf & Hu & Hocc) Hk Hg Hne.
  destruct (present_once user groups _ g Hocc Hk Hg)
    as (pre & post & Hsplit & Hpre & Hpost & Hothers).
  pose proof (lookup_lt_Some _ _ _ Hk) as Hlt.
  destruct (lookup_lt_is_Some_2 groups (Z.to_nat index)) as [target Ht]; [lia|].
  assert (Z.to_nat index ≠ k) as Hne' by lia.
  assert (rejoined groups k (pre ++ post) !! Z.to_nat index = Some target)
    as Ht' by (by rewrite rejoined_lookup_wf).
  pose proof (rejoined_absent user groups k g pre post
                Hu Hk Hsplit Hpre Hpost Hothers) as Habsent.
  exists (<[Z.to_nat index:=appendUser target user]>
            (rejoined groups k (pre ++ post))), g, pre, post, target.
  do 3 (split; [done|]). split.
  { rewrite (updateGroups_once user index groups k g pre post) by done.
    cbn zeta. rewrite bool_decide_true by done.
    assert (index_get (rejoined groups k (pre ++ post)) index = Some target)
      as -> by (apply index_get_Some; split; [lia|done]).
    cbn [mbind option_bind]. apply index_set_Some.
    rewrite length_rejoined. lia. }
  split; [by rewrite length_insert, length_rejoined|].
  split; [by rewrite list_lookup_insert_ne, rejoined_lookup_eq by done|].
  split.
  { rewrite Forall_lookup in Habsent. apply (Habsent k).
    by apply rejoined_lookup_eq. }
  split.
  { apply list_lookup_insert_eq. rewrite length_rejoined. lia. }
  split.
  { rewrite tokens_appendUser. f_equal.
    apply Split_no_sep. by eapply inGroup_sep_free. }
  intros j Hjk Hji.
  by rewrite list_lookup_insert_ne, rejoined_lookup_wf by done.
Qed.

Lemma move_removes_and_appends_witness :
  movePost "Alice" 2 ["Alice"; ":"; ":"; ":"] 0.
Proof.
  apply (proj1 move_removes_and_appends) with (g := "Alice");
    [|reflexivity|reflexivity|lia].
  repeat split; try lia; try discriminate.
  - by repeat constructor.
  - vm_compute. lia.
Defined.

(** C5 as stated fails on a well-formed group that holds the claimant twice,
    and for the sentinel as claimant.  The claimant is in exactly one
    group, group 0, and the click is on group 1; only the first occurrence
    is removed, so the claimant is in both groups afterwards; and the
    sentinel is still a token of the group it was moved out of. *)
Lemma move_leaves_claimant :
  (forallb wfGroup ["X, X"; ":"; ":"; ":"] = true
   ∧ inGroup "X" "X, X" = true
   ∧ forallb (λ g, negb (inGroup "X" g)) [":"; ":"; ":"] = true
   ∧ updateGroups "X" 1 ["X, X"; ":"; ":"; ":"] = Some ["X"; "X"; ":"; ":"]
   ∧ inGroup "X" "X" = true
   ∧ ¬ movePost "X" 1 ["X, X"; ":"; ":"; ":"] 0)
  ∧ (forallb wfGroup [":"; "A"; "B"; "C"] = true
     ∧ inGroup ":" ":" = true
     ∧ forallb (λ g, negb (inGroup ":" g)) ["A"; "B"; "C"] = true
     ∧ updateGroups ":" 1 [":"; "A"; "B"; "C"] = Some [":"; "A, :"; "B"; "C"]
     ∧ ¬ movePost ":" 1 [":"; "A"; "B"; "C"] 0).
Proof.
  repeat split; try reflexivity.
  - intros (groups' & g & pre & post & target & Hg & Hsplit & _ & _ & _ & _
            & Hin & _).
    injection Hg as <-. change (tokens "X, X") with ["X"; "X"] in Hsplit.
    destruct pre as [|p [|p' pre]]; injection Hsplit as <-;
      intros; simplify_eq; try (by vm_compute in Hin).
    by destruct pre.
  - intros (groups' & g & pre & post & target & Hg & Hsplit & _ & _ & _ & _
            & Hin & _).
    injection Hg as <-. change (tokens ":") with [":"] in Hsplit.
    destruct pre as [|p pre]; injection Hsplit as <-;
      intros; simplify_eq; try (by vm_compute in Hin).
    by destruct pre.
Qed.

(** ** The groups that are neither left nor entered *)

(** C10, as the code has it.  On a fresh claim the three non-target strings
    are returned as they were passed in.  In the toggle-off and move paths
    every string is split and joined again, which gives a non-empty string
    back character for character, whatever its separator spacing: the
    only string these paths rewrite is the empty string, which becomes the
    sentinel. *)
Theorem other_groups_frame :
  (∀ user index groups,
     length groups = 4%nat → 0 ≤ index < 4 →
     Forall (λ g, inGroup user g = false) groups →
     ∃ groups', updateGroups user index groups = Some groups'
       ∧ ∀ j, j ≠ Z.to_nat index → groups' !! j = groups !! j)
  ∧ (∀ user index groups k g,
       length groups = 4%nat → 0 ≤ index < 4 →
       groups !! k = Some g → inGroup user g = true →
       Forall (λ g, inGroup user g = false) (drop (S k) groups) →
       ∃ groups', updateGroups user index groups = Some groups'
         ∧ ∀ j, j ≠ k → j ≠ Z.to_nat index →
             groups' !! j
             = (λ g, if String.eqb g "" then ":" else g) <$> groups !! j).
Proof.
  split.
  - intros user index groups Hlen Hindex Habsent.
    destruct (lookup_lt_is_Some_2 groups (Z.to_nat index)) as [g Hg]; [lia|].
    rewrite updateGroups_absent by done.
    assert (index_get groups index = Some g) as ->
      by (apply index_get_Some; split; [lia|done]).
    cbn [mbind option_bind]. rewrite index_set_Some by lia.
    eexists. split; [done|]. intros j Hj. by rewrite list_lookup_insert_ne.
  - intros user index groups k g Hlen Hindex Hk Hg Hlater.
    rewrite (updateGroups_present user index groups k g) by done.
    destruct (remove_is_Some user (tokens g) (Split_not_nil g)) as [p ->].
    cbn [mbind option_bind]. fold (rejoined groups k p). cbn zeta.
    case_bool_decide.
    + destruct (lookup_lt_is_Some_2 (rejoined groups k p) (Z.to_nat index))
        as [g1 Hg1]; [rewrite length_rejoined; lia|].
      assert (index_get (rejoined groups k p) index = Some g1) as ->
        by (apply index_get_Some; split; [lia|done]).
      cbn [mbind option_bind].
      rewrite index_set_Some by (rewrite length_rejoined; lia).
      eexists. split; [done|]. intros j Hjk Hji.
      by rewrite list_lookup_insert_ne, rejoined_lookup_ne.
    + eexists. split; [done|]. intros j Hjk _.
      by rewrite rejoined_lookup_ne.
Qed.

Lemma other_groups_frame_witness :
  ∃ groups', updateGroups "Bob" 0 ["Bob"; "A,B"; ""; ":"] = Some groups'
    ∧ ∀ j, j ≠ 0%nat → j ≠ Z.to_nat 0 →
        groups' !! j
        = (λ g, if String.eqb g "" then ":" else g)
            <$> ["Bob"; "A,B"; ""; ":"] !! j.
Proof.
  apply (proj2 other_groups_frame) with (g := "Bob");
    [reflexivity|lia|reflexivity|reflexivity|].
  by repeat constructor.
Defined.

(** C10 as stated fails: a string with another separator spacing is not
    rewritten in the toggle-off path, it comes back as it went in; the
    string that is rewritten there is the empty one. *)
Lemma other_spacing_not_rewritten :
  updateGroups "Bob" 0 ["Bob"; "A,B"; "A,  B"; ":"]
  = Some [":"; "A,B"; "A,  B"; ":"]
  ∧ updateGroups "Bob" 0 ["Bob"; "A,B"; ""; ":"]
    = Some [":"; "A,B"; ":"; ":"]
  ∧ updateGroups "Bob" 0 [":"; "A,B"; ""; ":"]
    = Some ["Bob"; "A,B"; ""; ":"].
Proof. by vm_compute. Qed.

(** ** Claiming the same slot twice *)

(** C3, as the code has it.  For four well-formed groups that do not hold
    the claimant, a valid target index, and a claimant without the
    separator in its mention, two claims on the same slot return the
    original four strings, with the claimant in none of them. *)
Theorem claim_twice_restores user index groups :
  length groups = 4%nat → 0 ≤ index < 4 →
  Forall (λ g, wfGroup g = true) groups →
  Forall (λ g, inGroup user g = false) groups →
  Contains user ", " = false →
  ∃ groups1 groups2,
    updateGroups user index groups = Some groups1
    ∧ updateGroups user index groups1 = Some groups2
    ∧ groups2 = groups
    ∧ Forall (λ g, inGroup user g = false) groups2.
Proof.
  intros Hlen Hindex Hwf Habsent Huser.
  destruct (lookup_lt_is_Some_2 groups (Z.to_nat index)) as [g Hg]; [lia|].
  set (k := Z.to_nat index) in *.
  exists (<[k:=appendUser g user]> groups), groups.
  split.
  { rewrite updateGroups_absent by done.
    assert (index_get groups index = Some g) as ->
      by (apply index_get_Some; split; [lia|done]).
    cbn [mbind option_bind]. apply index_set_Some. lia. }
  split; [|done].
  set (pre := if String.eqb g ":" then [] else tokens g).
  assert (contains user pre = false) as Hpre.
  { unfold pre. destruct (String.eqb g ":"); [done|].
    rewrite Forall_lookup in Habsent. apply (Habsent k g Hg). }
  rewrite (updateGroups_once user index _ k (appendUser g user) pre []).
  - cbn zeta. rewrite bool_decide_false by lia. f_equal.
    rewrite app_nil_r. apply list_eq. intros j.
    destruct (decide (j = k)) as [->|Hj].
    + rewrite rejoined_lookup_eq by (rewrite length_insert; lia).
      rewrite Hg. f_equal. unfold pre.
      destruct (String.eqb_spec g ":") as [->|Hne]; [done|].
      rewrite rejoin_tokens.
      rewrite Forall_lookup in Hwf. apply Hwf, wfGroup_not_empty in Hg.
      by destruct (String.eqb_spec g "").
    + rewrite rejoined_lookup_ne, list_lookup_insert_ne by done.
      destruct (groups !! j) as [g'|] eqn:Hg'; [|done]. cbn.
      rewrite Forall_lookup in Hwf. apply Hwf, wfGroup_not_empty in Hg'.
      by destruct (String.eqb_spec g' "").
  - by rewrite length_insert.
  - apply list_lookup_insert_eq. lia.
  - by rewrite tokens_appendUser, (Split_no_sep user).
  - done.
  - intros j g' Hj. rewrite list_lookup_insert_ne by done.
    rewrite Forall_lookup in Habsent. apply Habsent.
Qed.

Lemma claim_twice_restores_witness :
  ∃ groups1 groups2,
    updateGroups "Bob" 1 [":"; "Alice"; ":"; ":"] = Some groups1
    ∧ updateGroups "Bob" 1 groups1 = Some groups2
    ∧ groups2 = [":"; "Alice"; ":"; ":"]
    ∧ Forall (λ g, inGroup "Bob" g = false) groups2.
Proof.
  apply claim_twice_restores; [reflexivity|lia| | |reflexivity];
    by repeat constructor.
Defined.

(** C3 as stated fails for a claimant whose mention contains the separator:
    the mention is stored as two tokens, the second claim does not find it
    and appends it once more. *)
Lemma claim_twice_with_separator :
  forallb wfGroup [":"; ":"; ":"; ":"] = true
  ∧ forallb (λ g, negb (inGroup "A, B" g)) [":"; ":"; ":"; ":"] = true
  ∧ updateGroups "A, B" 0 [":"; ":"; ":"; ":"]
    = Some ["A, B"; ":"; ":"; ":"]
  ∧ updateGroups "A, B" 0 ["A, B"; ":"; ":"; ":"]
    = Some ["A, B, A, B"; ":"; ":"; ":"].
Proof. by vm_compute. Qed.

(** ** The membership invariant along a sequence of claims *)

(** A click: the clicking user's mention and the slot index. *)
Record ClaimEvent := { claimant : string; target : Z }.

(** The four slot fields of a freshly posted poll, as the view-submission
    branch of [ModalHandler] creates them. *)
Definition emptyPoll : list string := [":"; ":"; ":"; ":"].

(** The poll message after a sequence of clicks (the handler writes the
    result of each [updateGroups] back into the message). *)
Fixpoint applyClaims (events : list ClaimEvent) (groups : list string)
    : option (list string) :=
  match events with
  | [] => Some groups
  | e :: rest =>
      groups ← updateGroups (claimant e) (target e) groups;
      applyClaims rest groups
  end.

(** Every mention other than the sentinel is a token of at most one of the
    groups. *)
Definition atMostOneGroup (groups : list string) : Prop :=
  ∀ user i j gi gj,
    user ≠ ":" →
    groups !! i = Some gi → groups !! j = Some gj →
    inGroup user gi = true → inGroup user gj = true → i = j.

(** The invariant that is preserved: four groups, and every mention other
    than the sentinel stands in the message at most once. *)
Definition membershipInv (groups : list string) : Prop :=
  length groups = 4%nat
  ∧ ∀ user, user ≠ ":" → (occurrences user groups ≤ 1)%nat.

Section invariant.

Implicit Types (user u g : string) (groups : list string) (index : Z).
Implicit Types (k : nat) (p pre post : list string).

Lemma count_singleton u user :
  count_occ String.string_dec [user] u = if decide (u = user) then 1%nat else 0%nat.
Proof.
  cbn [count_occ]. destruct (String.string_dec user u) as [->|Hne].
  - by rewrite decide_True.
  - by rewrite decide_False.
Qed.

Lemma occurrences_insert u groups k g g' :
  groups !! k = Some g →
  (occurrences u (<[k:=g']> groups) + count_occ String.string_dec (tokens g) u
   = occurrences u groups + count_occ String.string_dec (tokens g') u)%nat.
Proof.
  intros Hk. pose proof (lookup_lt_Some _ _ _ Hk) as Hlt.
  rewrite insert_take_drop by done.
  assert (occurrences u groups
          = occurrences u (take k groups ++ g :: drop (S k) groups)) as ->
    by (by rewrite take_drop_middle).
  rewrite !occurrences_app, !occurrences_cons. lia.
Qed.

Lemma occurrences_appendUser u user groups k g :
  u ≠ ":" → Contains user ", " = false → groups !! k = Some g →
  occurrences u (<[k:=appendUser g user]> groups)
  = (occurrences u groups + if decide (u = user) then 1 else 0)%nat.
Proof.
  intros Hu Huser Hk.
  pose proof (occurrences_insert u groups k g (appendUser g user) Hk) as H.
  rewrite tokens_appendUser, count_occ_app, (Split_no_sep user) in H by done.
  rewrite count_singleton in H.
  destruct (String.eqb_spec g ":") as [->|Hne]; [|lia].
  cbn [count_occ] in H. change (tokens ":") with [":"] in H.
  cbn [count_occ] in H. destruct (String.string_dec ":" u); [done|lia].
Qed.

Lemma count_rejoin_tokens u g :
  u ≠ ":" →
  (count_occ String.string_dec (tokens (rejoin (tokens g))) u
   ≤ count_occ String.string_dec (tokens g) u)%nat.
Proof.
  intros Hu. rewrite rejoin_tokens. destruct (String.eqb g ""); [|done].
  change (tokens ":") with [":"]. cbn [count_occ].
  destruct (String.string_dec ":" u); [done|lia].
Qed.

Lemma count_rejoin u p :
  u ≠ ":" → Forall (λ t, Contains t ", " = false) p →
  (count_occ String.string_dec (tokens (rejoin p)) u
   ≤ count_occ String.string_dec p u)%nat.
Proof.
  intros Hu Hp. destruct (tokens_rejoin p Hp) as [->| ->]; [|done].
  change (tokens ":") with [":"]. cbn [count_occ].
  destruct (String.string_dec ":" u); [done|lia].
Qed.

Lemma occurrences_rejoin_all u groups :
  u ≠ ":" →
  (occurrences u ((λ g, rejoin (tokens g)) <$> groups) ≤ occurrences u groups)%nat.
Proof.
  intros Hu. induction groups as [|g groups IH]; [done|].
  rewrite fmap_cons, !occurrences_cons.
  pose proof (count_rejoin_tokens u g Hu). lia.
Qed.

Lemma occurrences_rejoined u groups k g p :
  u ≠ ":" → groups !! k = Some g →
  Forall (λ t, Contains t ", " = false) p →
  (occurrences u (rejoined groups k p) + count_occ String.string_dec (tokens g) u
   ≤ occurrences u groups + count_occ String.string_dec p u)%nat.
Proof.
  intros Hu Hk Hp. pose proof (lookup_lt_Some _ _ _ Hk) as Hlt.
  unfold rejoined. rewrite insert_take_drop by (by rewrite length_fmap).
  rewrite <-fmap_take, <-fmap_drop.
  assert (occurrences u groups
          = occurrences u (take k groups ++ g :: drop (S k) groups)) as ->
    by (by rewrite take_drop_middle).
  rewrite !occurrences_app, !occurrences_cons.
  pose proof (occurrences_rejoin_all u (take k groups) Hu).
  pose proof (occurrences_rejoin_all u (drop (S k) groups) Hu).
  pose proof (count_rejoin u p Hu Hp). lia.
Qed.

End invariant.

(** A click the invariant survives: a valid slot index and a mention that
    is not the sentinel and does not contain the separator. *)
Definition validClaim (e : ClaimEvent) : Prop :=
  0 ≤ target e < 4 ∧ claimant e ≠ ":" ∧ Contains (claimant e) ", " = false.

Section claims.

Implicit Types (user u g : string) (groups : list string) (index : Z).
Implicit Types (e : ClaimEvent) (events : list ClaimEvent).

Lemma membershipInv_emptyPoll : membershipInv emptyPoll.
Proof.
  split; [done|]. intros user Hu. unfold occurrences, emptyPoll.
  change (count_occ String.string_dec [":"; ":"; ":"; ":"] user ≤ 1)%nat.
  cbn [count_occ]. destruct (String.string_dec ":" user); [done|lia].
Qed.

Lemma membershipInv_atMostOneGroup groups :
  membershipInv groups → atMostOneGroup groups.
Proof.
  intros [_ Hocc] user i j gi gj Hu Hi Hj Hgi Hgj.
  destruct (decide (i = j)) as [|Hne]; [done|].
  destruct (present_once user groups i gi (Hocc user Hu) Hi Hgi)
    as (_ & _ & _ & _ & _ & Hothers).
  specialize (Hothers j gj ltac:(done) Hj). congruence.
Qed.

(** One click preserves the invariant, and does not panic. *)
Lemma membershipInv_step user index groups :
  membershipInv groups →
  0 ≤ index < 4 → user ≠ ":" → Contains user ", " = false →
  ∃ groups', updateGroups user index groups = Some groups'
             ∧ membershipInv groups'.
Proof.
  intros [Hlen Hocc] Hindex Huser Hfree.
  destruct (absent_or_present user groups)
    as [Habsent|(k & g & Hk & Hg & _)].
  - destruct (lookup_lt_is_Some_2 groups (Z.to_nat index)) as [g Hg]; [lia|].
    rewrite updateGroups_absent by done.
    assert (index_get groups index = Some g) as ->
      by (apply index_get_Some; split; [lia|done]).
    cbn [mbind option_bind]. rewrite index_set_Some by lia.
    eexists. split; [done|]. split; [by rewrite length_insert|].
    intros u Hu. rewrite occurrences_appendUser by done.
    case_decide as Heq; [|specialize (Hocc u Hu); lia].
    subst u. apply occurrences_zero in Habsent. lia.
  - destruct (present_once user groups k g (Hocc user Huser) Hk Hg)
      as (pre & post & Hsplit & Hpre & Hpost & Hothers).
    pose proof (lookup_lt_Some _ _ _ Hk) as Hlt.
    rewrite (updateGroups_once user index groups k g pre post) by done.
    cbn zeta.
    assert (∀ u, u ≠ ":" →
      (occurrences u (rejoined groups k (pre ++ post))
       + (if decide (u = user) then 1 else 0) ≤ occurrences u groups)%nat)
      as Hocc1.
    { intros u Hu.
      assert (Forall (λ t, Contains t ", " = false) (pre ++ post)) as Hp.
      { pose proof (Split_sep_free g) as Hf. rewrite Hsplit in Hf.
        apply Forall_app in Hf as [Hfpre [_ Hfpost]%Forall_cons].
        by apply Forall_app. }
      pose proof (occurrences_rejoined u groups k g (pre ++ post) Hu Hk Hp)
        as H.
      rewrite Hsplit, !count_occ_app in H.
      change (user :: post) with ([user] ++ post) in H.
      rewrite count_occ_app, count_singleton in H. lia. }
    case_bool_decide.
    + destruct (lookup_lt_is_Some_2 (rejoined groups k (pre ++ post))
                  (Z.to_nat index)) as [g1 Hg1];
        [rewrite length_rejoined; lia|].
      assert (index_get (rejoined groups k (pre ++ post)) index = Some g1)
        as -> by (apply index_get_Some; split; [lia|done]).
      cbn [mbind option_bind].
      rewrite index_set_Some by (rewrite length_rejoined; lia).
      eexists. split; [done|].
      split; [by rewrite length_insert, length_rejoined|].
      intros u Hu. rewrite occurrences_appendUser by done.
      specialize (Hocc1 u Hu). specialize (Hocc u Hu). lia.
    + eexists. split; [done|]. split; [by rewrite length_rejoined|].
      intros u Hu. specialize (Hocc1 u Hu). specialize (Hocc u Hu). lia.
Qed.

Lemma membershipInv_applyClaims events groups :
  membershipInv groups → Forall validClaim events →
  ∃ groups', applyClaims events groups = Some groups'
             ∧ membershipInv groups'.
Proof.
  revert groups. induction events as [|e events IH]; intros groups Hinv Hvalid.
  { by exists groups. }
  apply Forall_cons in Hvalid as [(Hindex & Huser & Hfree) Hvalid].
  destruct (membershipInv_step (claimant e) (target e) groups)
    as (groups1 & Hstep & Hinv1); [done..|].
  cbn [applyClaims]. rewrite Hstep. cbn [mbind option_bind]. by apply IH.
Qed.

End claims.

(** C2, as the code has it.  Starting from four sentinel groups, for every
    sequence of claim events, each with a target index from 0 to 3 and a
    mention that is not the sentinel and does not contain the separator,
    after each application of [updateGroups] every mention is a token of at
    most one of the four groups (and stands there once). *)
Theorem membership_preserved events n :
  Forall validClaim events →
  ∃ groups,
    applyClaims (take n events) emptyPoll = Some groups
    ∧ atMostOneGroup groups
    ∧ ∀ user, user ≠ ":" → (occurrences user groups ≤ 1)%nat.
Proof.
  intros Hvalid.
  destruct (membershipInv_applyClaims (take n events) emptyPoll)
    as (groups & Hrun & Hinv).
  - apply membershipInv_emptyPoll.
  - by apply Forall_take.
  - exists groups. split; [done|].
    split; [by apply membershipInv_atMostOneGroup|apply Hinv].
Qed.

Lemma membership_preserved_witness :
  ∃ groups,
    applyClaims
      (take 3 [ {| claimant := "<@U1>"; target := 0 |};
                {| claimant := "<@U2>"; target := 0 |};
                {| claimant := "<@U1>"; target := 2 |} ])
      emptyPoll = Some groups
    ∧ atMostOneGroup groups
    ∧ ∀ user, user ≠ ":" → (occurrences user groups ≤ 1)%nat.
Proof.
  apply membership_preserved.
  repeat constructor; cbn; try lia; discriminate.
Defined.

(** C2 as stated fails for a mention that contains the separator: it is
    stored as two tokens, and the user whose mention is one of them ends up
    in two groups. *)
Lemma membership_broken_by_separator :
  applyClaims [ {| claimant := "<@U1>, <@U1>"; target := 0 |};
                {| claimant := "<@U1>"; target := 1 |} ] emptyPoll
  = Some ["<@U1>"; "<@U1>"; ":"; ":"]
  ∧ inGroup "<@U1>" "<@U1>" = true
  ∧ String.eqb "<@U1>, <@U1>" ":" = false
  ∧ String.eqb "<@U1>" ":" = false.
Proof. by vm_compute. Qed.

(** ** The handlers *)

(** [strconv.Atoi], as far as the program uses it. *)
Module strconv.

(** One decimal digit: [ch -= '0'; if ch > 9] is a syntax error. *)
Definition digit (c : ascii) : option Z :=
  let n := Z.of_nat (nat_of_ascii c) in
  if bool_decide (48 ≤ n ≤ 57) then Some (n - 48) else None.

Definition maxUint64 : Z := 2 ^ 64 - 1.

(** How the scan of the digits ends. *)
Inductive Parsed :=
  | SyntaxError
  | RangeError
  | Number (n : Z).

(** The scan of the digits, byte by byte as [ParseUint] does it: a byte that
    is no digit is a syntax error, and a value that leaves the range of
    [uint64] is a range error at the digit where it does so, whatever
    follows.  ([Atoi] has a second loop for strings of fewer than 19 bytes,
    which cannot overflow; on them it gives what this scan gives.) *)
Fixpoint digits (s : string) (n : Z) : Parsed :=
  match s with
  | EmptyString => Number n
  | String c rest =>
      match digit c with
      | None => SyntaxError
      | Some d =>
          if bool_decide (maxUint64 / 10 + 1 ≤ n) then RangeError
          else if bool_decide (maxUint64 < n * 10 + d) then RangeError
          else digits rest (n * 10 + d)
      end
  end.

(** The last step of [ParseInt]: a magnitude outside the range of a 64-bit
    [int] is a range error, returned together with the nearest value of the
    range. *)
Definition clamp (neg : bool) (un : Z) : Z * bool :=
  if negb neg && bool_decide (2 ^ 63 ≤ un) then (2 ^ 63 - 1, true)
  else if neg && bool_decide (2 ^ 63 < un) then (- 2 ^ 63, true)
  else (if neg then - un else un, false).

(** [Atoi s], for a 64-bit [int], is the value and whether an error is
    returned with it: an optional sign and at least one decimal digit,
    anything else is a syntax error with value 0. *)
Definition Atoi (s : string) : Z * bool :=
  match s with
  | EmptyString => (0, true)
  | String c rest =>
      let neg := bool_decide (c = "-"%char) in
      let body := if neg || bool_decide (c = "+"%char) then rest else s in
      match body with
      | EmptyString => (0, true)
      | _ =>
          match digits body 0 with
          | SyntaxError => (0, true)
          | RangeError => clamp neg maxUint64
          | Number un => clamp neg un
          end
      end
  end.

Example Atoi_examples :
  Atoi "3" = (3, false) ∧ Atoi "-12" = (-12, false) ∧ Atoi "+7" = (7, false)
  ∧ Atoi "" = (0, true) ∧ Atoi "-" = (0, true) ∧ Atoi "4x" = (0, true)
  ∧ Atoi "9223372036854775808" = (9223372036854775807, true).
Proof. by repeat split. Qed.

Example Atoi_range_examples :
  Atoi "9223372036854775807" = (9223372036854775807, false)
  ∧ Atoi "-9223372036854775808" = (-9223372036854775808, false)
  ∧ Atoi "-9223372036854775809" = (-9223372036854775808, true)
  ∧ Atoi "18446744073709551616" = (9223372036854775807, true)
  ∧ Atoi "99999999999999999999x" = (9223372036854775807, true)
  ∧ Atoi "-99999999999999999999x" = (-9223372036854775808, true)
  ∧ Atoi "12x99999999999999999999" = (0, true).
Proof. by repeat split. Qed.

End strconv.

(** The status codes of [net/http] the handlers write. *)
Module http.
Definition StatusOK : Z := 200.
Definition StatusUnauthorized : Z := 401.
Definition StatusInternalServerError : Z := 500.
End http.

(** The data of [github.com/slack-go/slack] the handlers read and build. *)
Module slack.

Record TextBlockObject := NewTextBlockObject {
  textType : string; Text : string; Emoji : bool; Verbatim : bool }.

Record ButtonBlockElement := NewButtonBlockElement {
  ActionID : string; buttonValue : string; buttonText : TextBlockObject }.

(** The element of an input block: a plain-text input or a conversation
    select. *)
Inductive InputElement :=
  | PlainTextInput (placeholder : TextBlockObject) (actionID : string)
  | ConversationsSelect (placeholder : TextBlockObject) (actionID : string)
      (initialConversation : string).

Inductive Block :=
  | SectionBlock (text : option TextBlockObject) (fields : list TextBlockObject)
  | ActionBlock (blockID : string) (elements : list ButtonBlockElement)
  | InputBlock (blockID : string) (label : TextBlockObject)
      (element : InputElement).

Record ModalViewRequest := {
  viewType : string; Title : TextBlockObject; Close : TextBlockObject;
  Submit : TextBlockObject; Blocks : list Block }.

(** One entry of [View.State.Values], and the clicked button of a block
    action. *)
Record BlockAction := { Value : string; SelectedConversation : string }.

Record SlashCommand := { Command : string; TriggerID : string }.

Record InteractionCallback := {
  Type_ : string;
  UserID : string;
  ChannelID : string;
  MessageTimestamp : string;
  BlockActions : list BlockAction;
  MessageBlocks : list Block;
  ViewValues : gmap string (gmap string BlockAction) }.

(** The calls on the Slack client. *)
Inductive ApiCall :=
  | OpenView (triggerID : string) (view : ModalViewRequest)
  | PostMessage (channel : string) (blocks : list Block)
  | UpdateMessage (channel timestamp : string) (blocks : list Block).

End slack.

Import slack.

(** An inbound HTTP request as the handlers see it: whether
    [verifySigningSecret] accepts it, and what parsing the body gives. *)
Record Request (A : Type) := { verified : bool; parsed : option A }.
Arguments verified {A} _.
Arguments parsed {A} _.

(** What a handler does: it panics, or it returns with a status code (200
    when [WriteHeader] was not called); either way after the listed calls
    on the Slack client.  Log output is left out, and the pointers of the
    payload (buttons, blocks, fields) are taken to be non-nil. *)
Inductive Outcome :=
  | Panicked (calls : list ApiCall)
  | Returned (status : Z) (calls : list ApiCall).

Definition calls (o : Outcome) : list ApiCall :=
  match o with Panicked cs | Returned _ cs => cs end.

Definition makeTextInputBlock (title placeholder returnName blockName : string)
    : Block :=
  let text := NewTextBlockObject "plain_text" title false false in
  let placeholderStr := NewTextBlockObject "plain_text" placeholder false false in
  InputBlock blockName text (PlainTextInput placeholderStr returnName).

Definition generateModalRequest : ModalViewRequest :=
  let question :=
    makeTextInputBlock "Name of Post" "It's time to poll!" "question" "question" in
  let choice1 := makeTextInputBlock "Choice 1" "2 hours" "choice1" "choice1" in
  let choice2 := makeTextInputBlock "Choice 2" "3 days" "choice2" "choice2" in
  let choice3 := makeTextInputBlock "Choice 3" "4 months" "choice3" "choice3" in
  let choice4 := makeTextInputBlock "Choice 4" "5 years" "choice4" "choice4" in
  let channelSelect :=
    ConversationsSelect
      (NewTextBlockObject "plain_text" "channel to post in" false false)
      "channelActionID" "" in
  let channel :=
    InputBlock "channel"
      (NewTextBlockObject "plain_text" "channel to post in" false false)
      channelSelect in
  {| viewType := "modal";
     Title := NewTextBlockObject "plain_text" "Fun fun poll time!" false false;
     Close := NewTextBlockObject "plain_text" "nvm" false false;
     Submit := NewTextBlockObject "plain_text" "Party time!" false false;
     Blocks := [question; choice1; choice2; choice3; choice4; channel] |}.

Section handlers.

(** The two interaction kinds the dispatcher names, constants of the Slack
    library, and the Slack API itself: whether a call comes back with an
    error. *)
Variables InteractionTypeBlockActions InteractionTypeViewSubmission : string.
Variable apiFails : ApiCall → bool.

(** [SlashHandler].  An error of [OpenView] is logged and nothing else. *)
Definition SlashHandler (r : Request SlashCommand) : Outcome :=
  if negb (verified r) then Returned http.StatusUnauthorized []
  else
    match parsed r with
    | None => Returned http.StatusUnauthorized []
    | Some s =>
        if String.eqb (Command s) "/poll" then
          Returned http.StatusOK [OpenView (TriggerID s) generateModalRequest]
        else Returned http.StatusInternalServerError []
    end.

(** [BlockSet[blockSetIndex]], asserted to be a section block: a missing
    block and a block of another type both panic. *)
Definition sectionAt (blocks : list Block) (blockSetIndex : Z)
    : option (option TextBlockObject * list TextBlockObject) :=
  b ← index_get blocks blockSetIndex;
  match b with
  | SectionBlock text fields => Some (text, fields)
  | _ => None
  end.

(** The loop over [[]int{1, 3, 5, 7}] that collects the group texts. *)
Fixpoint readFields (fields : list TextBlockObject) (positions : list Z)
    (groupTexts : list string) : option (list string) :=
  match positions with
  | [] => Some groupTexts
  | i :: rest =>
      f ← index_get fields i;
      readFields fields rest (groupTexts ++ [Text f])
  end.

Definition setText (f : TextBlockObject) (text : string) : TextBlockObject :=
  NewTextBlockObject (textType f) text (Emoji f) (Verbatim f).

(** The loop over [map[int]int{1: 0, 3: 1, 5: 2, 7: 3}] that writes the
    group texts back.  Go visits the entries in no fixed order; they write
    to different fields, so one order stands for all. *)
Fixpoint writeFields (fields : list TextBlockObject) (entries : list (Z * Z))
    (groupTexts : list string) : option (list TextBlockObject) :=
  match entries with
  | [] => Some fields
  | (k, v) :: rest =>
      g ← index_get groupTexts v;
      f ← index_get fields k;
      fields ← index_set fields k (setText f g);
      writeFields fields rest groupTexts
  end.

(** A 64-bit [int] after an arithmetic operation: the result wraps
    around. *)
Definition wrapInt (z : Z) : Z := (z + 2 ^ 63) mod 2 ^ 64 - 2 ^ 63.

(** The index [updateGroups] is called with for a clicked button. *)
Definition targetIndex (value : string) : Z :=
  let optionSelected := fst (strconv.Atoi value) in
  wrapInt (optionSelected - 1).

Example targetIndex_examples :
  targetIndex "1" = 0 ∧ targetIndex "0" = -1 ∧ targetIndex "five" = -1
  ∧ targetIndex "-9223372036854775808" = 9223372036854775807.
Proof. by repeat split. Qed.

(** The block-action branch up to the call of [updateMessage]: the blocks of
    the message with the four group texts updated. *)
Definition updatedBlocks (i : InteractionCallback) : option (list Block) :=
  let blockSetIndex := 2 in
  let userToAdd := "<@" +:+ UserID i +:+ ">" in
  a ← index_get (BlockActions i) 0;
  let newMessageBlocks := MessageBlocks i in
  '(text, fields) ← sectionAt newMessageBlocks blockSetIndex;
  groupTexts ← readFields fields [1; 3; 5; 7] [];
  groupTexts ← updateGroups userToAdd (targetIndex (Value a)) groupTexts;
  fields ← writeFields fields [(1, 0); (3, 1); (5, 2); (7, 3)] groupTexts;
  index_set newMessageBlocks blockSetIndex (SectionBlock text fields).

(** A lookup in [View.State.Values]: a missing key gives the zero value. *)
Definition valueAt (values : gmap string (gmap string BlockAction))
    (blockID actionID : string) : BlockAction :=
  default {| Value := ""; SelectedConversation := "" |}
    (values !! blockID ≫= λ m, m !! actionID).

(** The view-submission branch up to the call of [sendMessage]: the channel
    and the header, action and section block of the new poll.  The state of
    the view is taken to be there, as Slack sends it with every submission:
    on a payload without it the code dereferences a nil pointer and panics
    at the first lookup, before any call on the Slack client. *)
Definition pollMessage (i : InteractionCallback) : string * list Block :=
  let choiceText numStr :=
    NewTextBlockObject "plain_text"
      (Value (valueAt (ViewValues i) ("choice" +:+ numStr) ("choice" +:+ numStr)))
      false false in
  let numStrs := ["1"; "2"; "3"; "4"] in
  let textBlocks :=
    numStrs ≫= λ numStr,
      [choiceText numStr; NewTextBlockObject "mrkdwn" ":" false false] in
  let buttons :=
    (λ numStr,
       NewButtonBlockElement ("actionID" +:+ numStr) numStr (choiceText numStr))
      <$> numStrs in
  let actionBlock := ActionBlock "" buttons in
  let sectionBlock := SectionBlock None textBlocks in
  let question := Value (valueAt (ViewValues i) "question" "question") in
  let headerBlock :=
    SectionBlock (Some (NewTextBlockObject "plain_text" question true false)) [] in
  let channel :=
    SelectedConversation (valueAt (ViewValues i) "channel" "channelActionID") in
  let channel := if String.eqb channel "" then UserID i else channel in
  (channel, [headerBlock; actionBlock; sectionBlock]).

(** [ModalHandler]. *)
Definition ModalHandler (r : Request InteractionCallback) : Outcome :=
  if negb (verified r) then Returned http.StatusUnauthorized []
  else
    match parsed r with
    | None => Returned http.StatusUnauthorized []
    | Some i =>
        if String.eqb (Type_ i) InteractionTypeBlockActions then
          match updatedBlocks i with
          | None => Panicked []
          | Some blocks =>
              let call :=
                UpdateMessage (ChannelID i) (MessageTimestamp i) blocks in
              if apiFails call then Returned http.StatusUnauthorized [call]
              else Returned http.StatusOK [call]
          end
        else if String.eqb (Type_ i) InteractionTypeViewSubmission then
          let '(channel, blocks) := pollMessage i in
          let call := PostMessage channel blocks in
          if apiFails call then Returned http.StatusUnauthorized [call]
          else Returned http.StatusOK [call]
        else Returned http.StatusOK []
    end.

(** The handler returned with a success status and made no call on the
    Slack client: in particular no message was posted and none updated. *)
Definition ignoredOutcome (o : Outcome) : Prop :=
  ∃ status,
    o = Returned status [] ∧ 200 ≤ status < 300
    ∧ ∀ c, c ∈ calls o →
        match c with
        | PostMessage _ _ | UpdateMessage _ _ _ => False
        | OpenView _ _ => True
        end.

(** The handler returned with an error status and opened no view. *)
Definition rejectedOutcome (o : Outcome) : Prop :=
  ∃ status cs,
    o = Returned status cs ∧ 400 ≤ status < 600
    ∧ ∀ c, c ∈ calls o →
        match c with
        | OpenView _ _ => False
        | PostMessage _ _ | UpdateMessage _ _ _ => True
        end.

(** C8.  The two policies for unknown input differ.  A verified interaction
    payload whose kind is neither block actions nor view submission makes
    [ModalHandler] return with the success status and without any call on
    the Slack client, so no message is posted or updated.  A verified slash
    command whose name is not "/poll" makes [SlashHandler] return with an
    error status, and no view is opened. *)
Theorem unknown_kind_ignored_unknown_command_rejected :
  (∀ r i,
     verified r = true → parsed r = Some i →
     Type_ i ≠ InteractionTypeBlockActions →
     Type_ i ≠ InteractionTypeViewSubmission →
     ignoredOutcome (ModalHandler r))
  ∧ (∀ r s,
       verified r = true → parsed r = Some s → Command s ≠ "/poll" →
       rejectedOutcome (SlashHandler r)).
Proof.
  split.
  - intros r i Hv Hp Hba Hvs. unfold ModalHandler, ignoredOutcome.
    rewrite Hv, Hp. cbn [negb].
    destruct (String.eqb_spec (Type_ i) InteractionTypeBlockActions); [done|].
    destruct (String.eqb_spec (Type_ i) InteractionTypeViewSubmission); [done|].
    exists http.StatusOK. split; [done|]. split; [done|].
    by intros c Hc%elem_of_nil.
  - intros r s Hv Hp Hcmd. unfold SlashHandler, rejectedOutcome.
    rewrite Hv, Hp. cbn [negb].
    destruct (String.eqb_spec (Command s) "/poll"); [done|].
    exists http.StatusInternalServerError, []. split; [done|]. split; [done|].
    by intros c Hc%elem_of_nil.
Qed.

(** ** The index of a clicked button *)

Lemma readFields_total (fields : list TextBlockObject) positions groupTexts :
  Forall (λ i, 0 ≤ i < Z.of_nat (length fields)) positions →
  ∃ texts, readFields fields positions groupTexts = Some texts
           ∧ length texts = (length groupTexts + length positions)%nat.
Proof.
  revert groupTexts.
  induction positions as [|i positions IH]; intros groupTexts Hpos.
  { exists groupTexts. split; [done|]. cbn. lia. }
  apply Forall_cons in Hpos as [Hi Hpos]. cbn [readFields].
  destruct (lookup_lt_is_Some_2 fields (Z.to_nat i)) as [f Hf]; [lia|].
  assert (index_get fields i = Some f) as ->
    by (apply index_get_Some; split; [lia|done]).
  cbn [mbind option_bind].
  destruct (IH (groupTexts ++ [Text f]) Hpos) as (texts & -> & Hlen).
  exists texts. split; [done|]. rewrite Hlen, length_app. cbn. lia.
Qed.

Lemma writeFields_total (fields : list TextBlockObject) entries
    (groupTexts : list string) :
  Forall (λ e, 0 ≤ e.1 < Z.of_nat (length fields)
               ∧ 0 ≤ e.2 < Z.of_nat (length groupTexts)) entries →
  is_Some (writeFields fields entries groupTexts).
Proof.
  revert fields.
  induction entries as [|[k v] entries IH]; intros fields Hentries; [by eexists|].
  apply Forall_cons in Hentries as [[Hk Hv] Hentries]. cbn [fst snd] in *.
  cbn [writeFields].
  destruct (lookup_lt_is_Some_2 groupTexts (Z.to_nat v)) as [g Hg]; [lia|].
  destruct (lookup_lt_is_Some_2 fields (Z.to_nat k)) as [f Hf]; [lia|].
  assert (index_get groupTexts v = Some g) as ->
    by (apply index_get_Some; split; [lia|done]).
  assert (index_get fields k = Some f) as ->
    by (apply index_get_Some; split; [lia|done]).
  cbn [mbind option_bind]. rewrite index_set_Some by done.
  cbn [mbind option_bind]. apply IH.
  by rewrite length_insert.
Qed.

(** The message the view-submission branch posts has its section block at
    position 2, and the four group texts read from it are the sentinels. *)
Lemma pollMessage_emptyPoll i :
  ∃ text fields,
    sectionAt (pollMessage i).2 2 = Some (text, fields)
    ∧ length fields = 8%nat
    ∧ readFields fields [1; 3; 5; 7] [] = Some emptyPoll.
Proof. by eexists _, _. Qed.

(** C9.  A button value "1", "2", "3" or "4" is turned into the target index
    by the numeric parse minus one; the index lies between 0 and 3; with it
    [updateGroups] on four group strings returns four group strings, so no
    access to the group strings or to the parsed token lists is out of
    range; and the block-action branch as a whole does not panic on a
    message that has its section block with eight fields at position 2. *)
Theorem button_index_in_range :
  (∀ value n user groupTexts,
     ["1"; "2"; "3"; "4"] !! n = Some value →
     length groupTexts = 4%nat →
     strconv.Atoi value = (Z.of_nat n + 1, false)
     ∧ targetIndex value = Z.of_nat n
     ∧ 0 ≤ targetIndex value ≤ 3
     ∧ ∃ groups', updateGroups user (targetIndex value) groupTexts = Some groups'
                  ∧ length groups' = 4%nat)
  ∧ (∀ i a rest text fields,
       BlockActions i = a :: rest →
       Value a ∈ ["1"; "2"; "3"; "4"] →
       sectionAt (MessageBlocks i) 2 = Some (text, fields) →
       (8 ≤ length fields)%nat →
       is_Some (updatedBlocks i)).
Proof.
  assert (∀ value n, ["1"; "2"; "3"; "4"] !! n = Some value →
            strconv.Atoi value = (Z.of_nat n + 1, false)
            ∧ targetIndex value = Z.of_nat n ∧ 0 ≤ targetIndex value ≤ 3)
    as Hvalue.
  { intros value [|[|[|[|n]]]] [= <-]; by vm_compute. }
  split.
  - intros value n user groupTexts Hn Hlen.
    destruct (Hvalue value n Hn) as (HA & HT & HR).
    do 3 (split; [done|]). apply updateGroups_total; [done|lia].
  - intros i a rest text fields Ha Hv Hsec Hlen. unfold updatedBlocks.
    apply list_elem_of_lookup in Hv as [n Hn].
    destruct (Hvalue _ _ Hn) as (_ & _ & HR).
    rewrite Ha. change (index_get (a :: rest) 0) with (Some a).
    cbn [mbind option_bind]. rewrite Hsec. cbn [mbind option_bind].
    destruct (readFields_total fields [1; 3; 5; 7] [])
      as (texts & -> & Htexts).
    { repeat constructor; lia. }
    cbn [mbind option_bind length Nat.add] in *.
    destruct (updateGroups_total ("<@" +:+ UserID i +:+ ">")
                (targetIndex (Value a)) texts)
      as (groups' & -> & Hlen'); [done|lia|].
    cbn [mbind option_bind].
    destruct (writeFields_total fields [(1, 0); (3, 1); (5, 2); (7, 3)] groups')
      as [fields' ->].
    { repeat constructor; cbn [fst snd]; lia. }
    cbn [mbind option_bind].
    unfold sectionAt in Hsec.
    destruct (index_get (MessageBlocks i) 2) as [b|] eqn:Hb; [|done].
    apply index_get_Some in Hb as [_ Hb%lookup_lt_Some].
    rewrite index_set_Some by (change (Z.to_nat 2) with 2%nat in Hb; lia).
    by eexists.
Qed.

End handlers.

Lemma unknown_kind_ignored_unknown_command_rejected_witness :
  ignoredOutcome
    (ModalHandler "block_actions" "view_submission" (λ _, false)
       {| verified := true;
          parsed := Some {| Type_ := "shortcut"; UserID := "U1";
                            ChannelID := "C1"; MessageTimestamp := "1.0";
                            BlockActions := []; MessageBlocks := [];
                            ViewValues := ∅ |} |})
  ∧ rejectedOutcome
      (SlashHandler
         {| verified := true;
            parsed := Some {| Command := "/vote"; TriggerID := "T1" |} |}).
Proof.
  split.
  - by eapply (proj1 (unknown_kind_ignored_unknown_command_rejected _ _ _)).
  - by eapply (proj2 (unknown_kind_ignored_unknown_command_rejected "" "" (λ _, false))).
Defined.

Lemma button_index_in_range_witness :
  strconv.Atoi "3" = (Z.of_nat 2 + 1, false)
  ∧ targetIndex "3" = Z.of_nat 2
  ∧ 0 ≤ targetIndex "3" ≤ 3
  ∧ ∃ groups', updateGroups "<@U1>" (targetIndex "3") emptyPoll = Some groups'
               ∧ length groups' = 4%nat.
Proof. by apply (proj1 button_index_in_range). Defined.

(** * Further properties of the code *)

(** ** Where [remove] and [updateGroups] panic *)

Section bounds.

Implicit Types (user text g : string) (groups arr : list string) (index : Z).
Implicit Types (parsed : list (list string)) (i k : nat).

Lemma scanGroups_overflow user groups i parsed userIndex :
  (i ≤ length parsed < i + length groups)%nat →
  scanGroups user groups i parsed userIndex = None.
Proof.
  revert i parsed userIndex.
  induction groups as [|g rest IH]; intros i parsed userIndex Hlen;
    cbn [scanGroups length] in *; [lia|].
  destruct (decide (i < length parsed)%nat) as [Hi|Hi].
  - rewrite index_set_nat by done. cbn [mbind option_bind].
    rewrite index_get_nat, list_lookup_insert_eq by done.
    cbn [mbind option_bind]. apply IH. rewrite length_insert. lia.
  - unfold index_set. by rewrite bool_decide_false by lia.
Qed.

Lemma rejoinGroups_overflow parsed i groups :
  (i ≤ length groups < i + length parsed)%nat →
  rejoinGroups parsed i groups = None.
Proof.
  revert i groups.
  induction parsed as [|p rest IH]; intros i groups Hlen;
    cbn [rejoinGroups length] in *; [lia|].
  destruct (decide (i < length groups)%nat) as [Hi|Hi].
  - rewrite index_set_nat by done. cbn [mbind option_bind].
    rewrite index_get_nat, list_lookup_insert_eq by done.
    cbn [mbind option_bind].
    destruct (String.eqb (Join p ", ") "").
    + rewrite index_set_nat by (by rewrite length_insert).
      cbn [mbind option_bind]. apply IH. rewrite !length_insert. lia.
    + cbn [mbind option_bind]. apply IH. rewrite length_insert. lia.
  - unfold index_set. by rewrite bool_decide_false by lia.
Qed.

Lemma index_get_None {A} (l : list A) index :
  ¬ (0 ≤ index < Z.of_nat (length l)) → index_get l index = None.
Proof. intros H. unfold index_get. by rewrite bool_decide_false. Qed.

Lemma scanned_short user groups :
  (length groups ≤ 4)%nat →
  ∃ parsed, scanned user groups = Some (parsed, scanIndex user groups 0 (-1))
            ∧ length parsed = 4%nat.
Proof.
  intros Hlen. unfold scanned. rewrite scanGroups_spec by (cbn; lia).
  eexists. split; [done|].
  rewrite !length_app, length_take, length_fmap, length_drop. cbn. lia.
Qed.

End bounds.

(** X1.  With four groups, [updateGroups] returns a result exactly when the
    index is one of 0, 1, 2, 3, whoever the user is and whatever the groups
    hold; any other index runs out of range.  The result has four groups
    again. *)
Theorem updateGroups_returns_iff_index_valid user index groups :
  length groups = 4%nat →
  (is_Some (updateGroups user index groups) ↔ 0 ≤ index < 4)
  ∧ ∀ groups', updateGroups user index groups = Some groups' →
               length groups' = 4%nat.
Proof.
  intros Hlen. split.
  - split.
    + intros [groups' Hsome].
      destruct (decide (0 ≤ index < 4)) as [|Hout]; [done|]. exfalso.
      destruct (absent_or_present user groups)
        as [Hall|(k & g & Hk & Hg & Hlater)].
      * rewrite updateGroups_absent, index_get_None in Hsome by (done || lia).
        done.
      * pose proof (lookup_lt_Some _ _ _ Hk) as Hlt.
        rewrite (updateGroups_present user index groups k g) in Hsome by done.
        destruct (remove user (tokens g)) as [p|]; [|done].
        cbn [mbind option_bind] in Hsome. cbn zeta in Hsome.
        rewrite bool_decide_true in Hsome by lia.
        rewrite index_get_None in Hsome; [done|].
        rewrite length_insert, length_fmap. lia.
    + intros Hindex.
      destruct (updateGroups_total user index groups Hlen Hindex)
        as (groups' & -> & _). by eexists.
  - intros groups' Hsome.
    destruct (decide (0 ≤ index < 4)) as [Hindex|Hout].
    + destruct (updateGroups_total user index groups Hlen Hindex)
        as (groups'' & Hsome' & Hlen'). congruence.
    + exfalso.
      destruct (absent_or_present user groups)
        as [Hall|(k & g & Hk & Hg & Hlater)].
      * rewrite updateGroups_absent, index_get_None in Hsome by (done || lia).
        done.
      * pose proof (lookup_lt_Some _ _ _ Hk) as Hlt.
        rewrite (updateGroups_present user index groups k g) in Hsome by done.
        destruct (remove user (tokens g)) as [p|]; [|done].
        cbn [mbind option_bind] in Hsome. cbn zeta in Hsome.
        rewrite bool_decide_true in Hsome by lia.
        rewrite index_get_None in Hsome; [done|].
        rewrite length_insert, length_fmap. lia.
Qed.

Lemma updateGroups_returns_iff_index_valid_witness :
  (is_Some (updateGroups "<@U1>" 4 ["<@U1>"; ":"; ":"; ":"]) ↔ 0 ≤ 4 < 4)
  ∧ ∀ groups', updateGroups "<@U1>" 4 ["<@U1>"; ":"; ":"; ":"] = Some groups' →
               length groups' = 4%nat.
Proof. by apply updateGroups_returns_iff_index_valid. Defined.

(** X2.  [updateGroups] relies on there being exactly four groups.  With
    more than four the first loop runs past the four parsed groups and the
    call panics.  With fewer than four it panics whenever the user is found
    in a group, in the loop that joins the four parsed groups again; when
    the user is in none, the target group gets the user appended, provided
    the index is within the groups given. *)
Theorem updateGroups_needs_four_groups user index groups :
  ((4 < length groups)%nat → updateGroups user index groups = None)
  ∧ ((length groups < 4)%nat →
     Exists (λ g, inGroup user g = true) groups →
     updateGroups user index groups = None)
  ∧ ((length groups < 4)%nat →
     Forall (λ g, inGroup user g = false) groups →
     updateGroups user index groups
     = (g ← index_get groups index;
        Some (<[Z.to_nat index:=appendUser g user]> groups))).
Proof.
  split; [|split].
  - intros Hlen. unfold updateGroups, scanned.
    by rewrite scanGroups_overflow by (cbn; lia).
  - intros Hlen Hex.
    destruct (absent_or_present user groups)
      as [Hall|(k & g & Hk & Hg & Hlater)].
    { apply Exists_exists in Hex as (g & Hin & Hg).
      rewrite Forall_forall in Hall. specialize (Hall g Hin). congruence. }
    pose proof (lookup_lt_Some _ _ _ Hk) as Hlt.
    destruct (scanned_short user groups) as (parsed & Hscan & Hparsed); [lia|].
    unfold updateGroups. rewrite Hscan. cbn [mbind option_bind].
    rewrite (scanIndex_last user groups k g) by done.
    rewrite bool_decide_false by lia.
    destruct (index_get parsed (Z.of_nat k)) as [p|]; [|done].
    cbn [mbind option_bind].
    destruct (remove user p) as [p'|]; [|done]. cbn [mbind option_bind].
    rewrite index_set_nat by lia. cbn [mbind option_bind].
    by rewrite rejoinGroups_overflow by (rewrite length_insert; cbn; lia).
  - intros Hlen Hall.
    destruct (scanned_short user groups) as (parsed & Hscan & Hparsed); [lia|].
    unfold updateGroups. rewrite Hscan. cbn [mbind option_bind].
    rewrite scanIndex_absent by done. rewrite bool_decide_true by done.
    destruct (index_get groups index) as [g|] eqn:Hg; [|done].
    cbn [mbind option_bind]. apply index_get_Some in Hg as [H0 Hg].
    apply lookup_lt_Some in Hg. apply index_set_Some. lia.
Qed.

Lemma updateGroups_needs_four_groups_witness :
  updateGroups "<@U1>" 0 ["<@U1>"; ":"] = None
  ∧ updateGroups "<@U1>" 1 [":"; ":"]
    = (g ← index_get [":"; ":"] 1;
       Some (<[Z.to_nat 1:=appendUser g "<@U1>"]> [":"; ":"])).
Proof.
  split.
  - apply (proj1 (proj2 (updateGroups_needs_four_groups _ _ _))).
    + cbn. lia.
    + by constructor.
  - apply (proj2 (proj2 (updateGroups_needs_four_groups _ _ _))).
    + cbn. lia.
    + by repeat constructor.
Defined.

(** X3.  [remove] panics on the empty list and on no other.  Whenever it
    returns, the result is one element shorter, also when [text] does not
    occur in the list: then the first element is the one that goes. *)
Theorem remove_drops_one_element text arr :
  (remove text arr = None ↔ arr = [])
  ∧ (∀ arr', remove text arr = Some arr' → length arr = S (length arr'))
  ∧ (∀ s rest, arr = s :: rest → contains text arr = false →
       remove text arr = Some rest).
Proof.
  split; [|split].
  - split.
    + intros Hnone. destruct arr as [|s arr]; [done|].
      destruct (remove_is_Some text (s :: arr)) as [? ?]; [done|congruence].
    + by intros ->.
  - intros arr'. unfold remove. case_bool_decide as Hlt; [|done].
    intros [= <-]. rewrite length_app, length_take, length_drop. lia.
  - intros s rest -> Hc. unfold remove.
    assert (removeIndex text (s :: rest) 0 = 0%nat) as ->.
    { clear -Hc. generalize 0%nat at 1.
      induction (s :: rest) as [|s' l IH]; intros i; [done|].
      cbn [contains removeIndex] in *.
      destruct (String.eqb text s'); [done|]. by apply IH. }
    by rewrite bool_decide_true by (cbn; lia).
Qed.

Lemma remove_drops_one_element_witness :
  remove "x" ["a"; "b"] = Some ["b"].
Proof.
  by apply (proj2 (proj2 (remove_drops_one_element "x" ["a"; "b"])) "a" ["b"]).
Defined.

(** ** What a click does to the claimant and to everybody else *)

(** The members of a group apart from the user: its tokens without the
    user's mention and without the sentinel, in their order. *)
Definition others (user g : string) : list string :=
  filter (λ t, t ≠ user ∧ t ≠ ":") (tokens g).

Section others.

Implicit Types (user g : string) (groups : list string) (index : Z) (k : nat).
Implicit Types (p pre post : list string).

Lemma wfGroup_tokens g : wfGroup g = true → Forall (λ t, t ≠ "") (tokens g).
Proof.
  unfold wfGroup. rewrite forallb_forall, Forall_forall.
  intros H t Ht%list_elem_of_In. specialize (H t Ht).
  by destruct (String.eqb_spec t "").
Qed.

Lemma others_sentinel user : others user ":" = [].
Proof.
  unfold others. change (tokens ":") with [":"].
  rewrite filter_cons_False; [done|]. by intros [_ ?].
Qed.

Lemma others_appendUser user g :
  Contains user ", " = false → others user (appendUser g user) = others user g.
Proof.
  intros Hfree. unfold others at 1.
  rewrite tokens_appendUser, (Split_no_sep user), filter_app by done.
  rewrite (filter_cons_False _ user) by (by intros [? _]).
  rewrite filter_nil, app_nil_r.
  destruct (String.eqb_spec g ":") as [->|]; [|done].
  by rewrite others_sentinel.
Qed.

Lemma others_rejoin_tokens user g :
  g ≠ "" → others user (rejoin (tokens g)) = others user g.
Proof.
  intros Hg. rewrite rejoin_tokens. by destruct (String.eqb_spec g "").
Qed.

Lemma others_rejoin_removed user g pre post :
  wfGroup g = true → tokens g = pre ++ user :: post →
  others user (rejoin (pre ++ post)) = others user g.
Proof.
  intros Hwf Hsplit.
  assert (others user g = filter (λ t, t ≠ user ∧ t ≠ ":") (pre ++ post)) as ->.
  { unfold others. rewrite Hsplit, !filter_app.
    by rewrite (filter_cons_False _ user) by (by intros [? _]). }
  pose proof (wfGroup_tokens g Hwf) as Hne. rewrite Hsplit in Hne.
  apply Forall_app in Hne as [Hnpre [_ Hnpost]%Forall_cons].
  pose proof (Split_sep_free g) as Hfree. rewrite Hsplit in Hfree.
  apply Forall_app in Hfree as [Hfpre [_ Hfpost]%Forall_cons].
  unfold rejoin.
  destruct (String.eqb_spec (Join (pre ++ post) ", ") "") as [HJ|HJ].
  - rewrite others_sentinel.
    apply Join_empty in HJ as [->|HJ]; [done|].
    assert (Forall (λ t, t ≠ "") (pre ++ post)) as Hall by (by apply Forall_app).
    rewrite HJ in Hall. by apply Forall_cons in Hall as [? _].
  - unfold others. rewrite Split_Join; [done| |by apply Forall_app].
    intros Hnil. by rewrite Hnil in HJ.
Qed.

End others.

(** X4.  A click does not touch anybody else.  For four well-formed groups,
    a valid index and a user whose mention holds no separator, every group
    has after the update the members it had before, apart from the user,
    and in the order they had. *)
Theorem other_members_unchanged user index groups :
  length groups = 4%nat → 0 ≤ index < 4 →
  Forall (λ g, wfGroup g = true) groups →
  Contains user ", " = false →
  ∃ groups',
    updateGroups user index groups = Some groups'
    ∧ ∀ j g g', groups !! j = Some g → groups' !! j = Some g' →
        others user g' = others user g.
Proof.
  intros Hlen Hindex Hwf Hfree.
  assert (∀ j g, groups !! j = Some g → wfGroup g = true) as Hwf'
    by (by apply Forall_lookup).
  destruct (absent_or_present user groups)
    as [Hall|(k & gk & Hk & Hgk & Hlater)].
  - destruct (lookup_lt_is_Some_2 groups (Z.to_nat index)) as [t Ht]; [lia|].
    rewrite updateGroups_absent by done.
    assert (index_get groups index = Some t) as ->
      by (apply index_get_Some; split; [lia|done]).
    cbn [mbind option_bind]. rewrite index_set_Some by lia.
    eexists. split; [done|]. intros j g g' Hg Hg'.
    destruct (decide (j = Z.to_nat index)) as [->|Hj].
    + rewrite list_lookup_insert_eq in Hg' by lia. simplify_eq.
      by apply others_appendUser.
    + rewrite list_lookup_insert_ne in Hg' by done. congruence.
  - pose proof (lookup_lt_Some _ _ _ Hk) as Hlt.
    destruct (contains_first _ _ Hgk) as (pre & post & Hsplit & Hpre).
    rewrite (updateGroups_present user index groups k gk) by done.
    rewrite Hsplit, remove_first by done. cbn [mbind option_bind].
    fold (rejoined groups k (pre ++ post)). cbn zeta.
    assert (∀ j g g', groups !! j = Some g →
              rejoined groups k (pre ++ post) !! j = Some g' →
              others user g' = others user g) as Hrejoined.
    { intros j g g' Hg Hg'. destruct (decide (j = k)) as [->|Hj].
      - rewrite rejoined_lookup_eq in Hg' by done. simplify_eq.
        apply others_rejoin_removed; [by eapply Hwf'|done].
      - rewrite rejoined_lookup_wf in Hg' by done. congruence. }
    case_bool_decide; [|by eexists].
    destruct (lookup_lt_is_Some_2 (rejoined groups k (pre ++ post))
                (Z.to_nat index)) as [t Ht]; [rewrite length_rejoined; lia|].
    assert (index_get (rejoined groups k (pre ++ post)) index = Some t) as ->
      by (apply index_get_Some; split; [lia|done]).
    cbn [mbind option_bind].
    rewrite index_set_Some by (rewrite length_rejoined; lia).
    eexists. split; [done|]. intros j g g' Hg Hg'.
    destruct (decide (j = Z.to_nat index)) as [->|Hj].
    + rewrite list_lookup_insert_eq in Hg' by (rewrite length_rejoined; lia).
      simplify_eq. rewrite others_appendUser by done. by eapply Hrejoined.
    + rewrite list_lookup_insert_ne in Hg' by done. by eapply Hrejoined.
Qed.

Lemma other_members_unchanged_witness :
  ∃ groups',
    updateGroups "<@U2>" 1 ["<@U1>, <@U2>, <@U3>"; "<@U4>"; ":"; ":"]
    = Some groups'
    ∧ ∀ j g g',
        ["<@U1>, <@U2>, <@U3>"; "<@U4>"; ":"; ":"] !! j = Some g →
        groups' !! j = Some g' →
        others "<@U2>" g' = others "<@U2>" g.
Proof.
  apply other_members_unchanged; [reflexivity|lia| |reflexivity].
  by repeat constructor.
Defined.



(** ** Two clicks in a row *)

Section two_clicks.

Implicit Types (user g : string) (groups : list string) (index : Z) (k : nat).



End two_clicks.





(** ** The block-action branch on any message *)

Section block_actions.

Implicit Types (user g : string) (groups : list string) (index : Z).
Implicit Types (fields : list TextBlockObject) (blocks : list Block).

(** A result of [updateGroups] on four groups: the index was valid, and
    there are four groups again. *)
Lemma updateGroups_Some_inv user index groups groups' :
  length groups = 4%nat → updateGroups user index groups = Some groups' →
  0 ≤ index < 4 ∧ length groups' = 4%nat.
Proof.
  intros Hlen Hsome.
  destruct (decide (0 ≤ index < 4)) as [Hindex|Hout].
  - split; [done|].
    destruct (updateGroups_total user index groups Hlen Hindex)
      as (groups'' & Hsome' & Hlen'). congruence.
  - exfalso.
    destruct (absent_or_present user groups)
      as [Hall|(k & g & Hk & Hg & Hlater)].
    + rewrite updateGroups_absent, index_get_None in Hsome by (done || lia).
      done.
    + pose proof (lookup_lt_Some _ _ _ Hk) as Hlt.
      rewrite (updateGroups_present user index groups k g) in Hsome by done.
      destruct (remove user (tokens g)) as [p|]; [|done].
      cbn [mbind option_bind] in Hsome. cbn zeta in Hsome.
      rewrite bool_decide_true in Hsome by lia.
      rewrite index_get_None in Hsome; [done|].
      rewrite length_insert, length_fmap. lia.
Qed.

(** The four reads of the first loop succeed only on at least eight
    fields. *)
Lemma readFields_inv fields groupTexts :
  readFields fields [1; 3; 5; 7] [] = Some groupTexts →
  ∃ f0 f1 f2 f3 f4 f5 f6 f7 rest,
    fields = f0 :: f1 :: f2 :: f3 :: f4 :: f5 :: f6 :: f7 :: rest
    ∧ groupTexts = [Text f1; Text f3; Text f5; Text f7].
Proof.
  cbn [readFields]. intros Hread.
  destruct (index_get fields 1) as [f1|] eqn:H1; [|done].
  cbn [mbind option_bind] in Hread.
  destruct (index_get fields 3) as [f3|] eqn:H3; [|done].
  cbn [mbind option_bind] in Hread.
  destruct (index_get fields 5) as [f5|] eqn:H5; [|done].
  cbn [mbind option_bind] in Hread.
  destruct (index_get fields 7) as [f7|] eqn:H7; [|done].
  cbn [mbind option_bind app] in Hread. injection Hread as <-.
  apply index_get_Some in H1 as [_ H1]. apply index_get_Some in H3 as [_ H3].
  apply index_get_Some in H5 as [_ H5]. apply index_get_Some in H7 as [_ H7].
  destruct fields as [|f0 [|f1' [|f2 [|f3' [|f4 [|f5' [|f6 [|f7' rest]]]]]]]];
    try done.
  change (Z.to_nat 1) with 1%nat in H1. change (Z.to_nat 3) with 3%nat in H3.
  change (Z.to_nat 5) with 5%nat in H5. change (Z.to_nat 7) with 7%nat in H7.
  cbn in H1, H3, H5, H7. simplify_eq.
  eexists _, _, _, _, _, _, _, _, _. split; reflexivity.
Qed.

(** The second loop on eight or more fields and four group texts. *)
Lemma writeFields_eight f0 f1 f2 f3 f4 f5 f6 f7 rest a b c d :
  writeFields (f0 :: f1 :: f2 :: f3 :: f4 :: f5 :: f6 :: f7 :: rest)
    [(1, 0); (3, 1); (5, 2); (7, 3)] [a; b; c; d]
  = Some (f0 :: setText f1 a :: f2 :: setText f3 b :: f4 :: setText f5 c
            :: f6 :: setText f7 d :: rest).
Proof.
  unfold writeFields, index_get, index_set.
  change (Z.to_nat 0) with 0%nat. change (Z.to_nat 1) with 1%nat.
  change (Z.to_nat 2) with 2%nat. change (Z.to_nat 3) with 3%nat.
  change (Z.to_nat 5) with 5%nat. change (Z.to_nat 7) with 7%nat.
  repeat (rewrite bool_decide_true by (cbn [length]; lia);
          cbn [mbind option_bind lookup list_lookup insert list_insert]).
  reflexivity.
Qed.

End block_actions.

(** A click as Slack delivers it: the clicking user, the value of the
    clicked button and the blocks of the message the button is in. *)
Definition clickOn (userID value : string) (blocks : list Block)
    : InteractionCallback :=
  {| Type_ := "block_actions"; UserID := userID; ChannelID := "";
     MessageTimestamp := "";
     BlockActions := [{| Value := value; SelectedConversation := "" |}];
     MessageBlocks := blocks; ViewValues := ∅ |}.

(** A submitted form without any value, from the given user. *)
Definition emptySubmission (userID : string) : InteractionCallback :=
  {| Type_ := "view_submission"; UserID := userID; ChannelID := "";
     MessageTimestamp := ""; BlockActions := []; MessageBlocks := [];
     ViewValues := ∅ |}.

(** Everything the block-action branch needs in order not to panic, and
    what it then produces. *)
Lemma updatedBlocks_inv i blocks' :
  updatedBlocks i = Some blocks' →
  ∃ a text f0 f1 f2 f3 f4 f5 f6 f7 rest t1 t3 t5 t7,
    BlockActions i !! 0%nat = Some a
    ∧ MessageBlocks i !! 2%nat
      = Some (SectionBlock text
                (f0 :: f1 :: f2 :: f3 :: f4 :: f5 :: f6 :: f7 :: rest))
    ∧ updateGroups ("<@" +:+ UserID i +:+ ">") (targetIndex (Value a))
        [Text f1; Text f3; Text f5; Text f7]
      = Some [t1; t3; t5; t7]
    ∧ 0 ≤ targetIndex (Value a) < 4
    ∧ blocks'
      = <[2%nat:=SectionBlock text
                   (f0 :: setText f1 t1 :: f2 :: setText f3 t3 :: f4
                      :: setText f5 t5 :: f6 :: setText f7 t7 :: rest)]>
          (MessageBlocks i).
Proof.
  unfold updatedBlocks. intros H.
  destruct (index_get (BlockActions i) 0) as [a|] eqn:Ha; [|done].
  cbn [mbind option_bind] in H.
  destruct (sectionAt (MessageBlocks i) 2) as [[text fields]|] eqn:Hsec; [|done].
  cbn [mbind option_bind] in H.
  destruct (readFields fields [1; 3; 5; 7] []) as [groupTexts|] eqn:Hread;
    [|done].
  cbn [mbind option_bind] in H.
  apply readFields_inv
    in Hread as (f0 & f1 & f2 & f3 & f4 & f5 & f6 & f7 & rest & -> & ->).
  destruct (updateGroups _ _ _) as [groupTexts'|] eqn:Hupd; [|done].
  cbn [mbind option_bind] in H.
  destruct (updateGroups_Some_inv _ _ [Text f1; Text f3; Text f5; Text f7] _
              eq_refl Hupd) as [Hindex Hlen'].
  destruct groupTexts' as [|t1 [|t3 [|t5 [|t7 [|]]]]]; try done.
  rewrite writeFields_eight in H. cbn [mbind option_bind] in H.
  unfold sectionAt in Hsec.
  destruct (index_get (MessageBlocks i) 2) as [b|] eqn:Hb; [|done].
  cbn [mbind option_bind] in Hsec. destruct b; try done. injection Hsec as -> ->.
  apply index_get_Some in Hb as [_ Hb]. change (Z.to_nat 2) with 2%nat in Hb.
  apply index_get_Some in Ha as [_ Ha]. change (Z.to_nat 0) with 0%nat in Ha.
  unfold index_set in H. case_bool_decide; [|done]. injection H as <-.
  by eexists a, _, f0, f1, f2, f3, f4, f5, f6, f7, rest, t1, t3, t5, t7.
Qed.

(** X8.  Whenever the block-action branch gets as far as the message
    update, the blocks it sends are the blocks of the message with one
    change: in the section block at position 2 the texts of the fields 1,
    3, 5 and 7 are replaced by what [updateGroups] returns for them.  The
    number of blocks, every other block, the text of the section block, the
    number of fields, every other field (the choice labels at 0, 2, 4, 6
    among them) and the type of the rewritten fields are kept. *)
Theorem block_action_rewrites_group_texts i blocks' :
  updatedBlocks i = Some blocks' →
  ∃ a text fields fields' groupTexts groupTexts',
    BlockActions i !! 0%nat = Some a
    ∧ MessageBlocks i !! 2%nat = Some (SectionBlock text fields)
    ∧ blocks' !! 2%nat = Some (SectionBlock text fields')
    ∧ length blocks' = length (MessageBlocks i)
    ∧ (∀ n, n ≠ 2%nat → blocks' !! n = MessageBlocks i !! n)
    ∧ (λ n, Text <$> fields !! n) <$> [1; 3; 5; 7]%nat = Some <$> groupTexts
    ∧ updateGroups ("<@" +:+ UserID i +:+ ">") (targetIndex (Value a))
        groupTexts = Some groupTexts'
    ∧ (λ n, Text <$> fields' !! n) <$> [1; 3; 5; 7]%nat = Some <$> groupTexts'
    ∧ length fields' = length fields
    ∧ (∀ n, n ∉ [1; 3; 5; 7]%nat → fields' !! n = fields !! n)
    ∧ (∀ n, textType <$> fields' !! n = textType <$> fields !! n).
Proof.
  intros (a & text & f0 & f1 & f2 & f3 & f4 & f5 & f6 & f7 & rest
          & t1 & t3 & t5 & t7 & Ha & Hsec & Hupd & _ & ->)%updatedBlocks_inv.
  pose proof (lookup_lt_Some _ _ _ Hsec) as Hlt.
  exists a, text, (f0 :: f1 :: f2 :: f3 :: f4 :: f5 :: f6 :: f7 :: rest),
    (f0 :: setText f1 t1 :: f2 :: setText f3 t3 :: f4 :: setText f5 t5
       :: f6 :: setText f7 t7 :: rest),
    [Text f1; Text f3; Text f5; Text f7], [t1; t3; t5; t7].
  split; [done|]. split; [exact Hsec|].
  split; [by apply list_lookup_insert_eq|].
  split; [by rewrite length_insert|].
  split; [intros n Hn; by rewrite list_lookup_insert_ne|].
  split; [reflexivity|]. split; [exact Hupd|]. split; [reflexivity|].
  split; [reflexivity|]. split.
  - intros n Hn.
    destruct n as [|[|[|[|[|[|[|[|n]]]]]]]]; try reflexivity;
      exfalso; apply Hn; set_solver.
  - intros n. by destruct n as [|[|[|[|[|[|[|[|n]]]]]]]].
Qed.

Lemma block_action_rewrites_group_texts_witness :
  ∃ a text fields fields' groupTexts groupTexts',
    BlockActions (clickOn "U1" "2" (pollMessage (emptySubmission "U9")).2)
      !! 0%nat = Some a
    ∧ MessageBlocks (clickOn "U1" "2" (pollMessage (emptySubmission "U9")).2)
        !! 2%nat = Some (SectionBlock text fields)
    ∧ default [] (updatedBlocks
                    (clickOn "U1" "2" (pollMessage (emptySubmission "U9")).2))
        !! 2%nat = Some (SectionBlock text fields')
    ∧ length (default [] (updatedBlocks
                (clickOn "U1" "2" (pollMessage (emptySubmission "U9")).2)))
      = length (MessageBlocks
                  (clickOn "U1" "2" (pollMessage (emptySubmission "U9")).2))
    ∧ (∀ n, n ≠ 2%nat →
         default [] (updatedBlocks
                       (clickOn "U1" "2" (pollMessage (emptySubmission "U9")).2))
           !! n
         = MessageBlocks
             (clickOn "U1" "2" (pollMessage (emptySubmission "U9")).2) !! n)
    ∧ (λ n, Text <$> fields !! n) <$> [1; 3; 5; 7]%nat = Some <$> groupTexts
    ∧ updateGroups
        ("<@" +:+ UserID (clickOn "U1" "2" (pollMessage (emptySubmission "U9")).2)
           +:+ ">")
        (targetIndex (Value a)) groupTexts = Some groupTexts'
    ∧ (λ n, Text <$> fields' !! n) <$> [1; 3; 5; 7]%nat = Some <$> groupTexts'
    ∧ length fields' = length fields
    ∧ (∀ n, n ∉ [1; 3; 5; 7]%nat → fields' !! n = fields !! n)
    ∧ (∀ n, textType <$> fields' !! n = textType <$> fields !! n).
Proof. by apply block_action_rewrites_group_texts. Defined.

(** The scan of the digits never gives a negative number. *)
Lemma digits_nonneg s n un :
  0 ≤ n → strconv.digits s n = strconv.Number un → 0 ≤ un.
Proof.
  revert n. induction s as [|c s IH]; intros n Hn; cbn [strconv.digits].
  { by intros [= <-]. }
  unfold strconv.digit.
  case_bool_decide as Hc; [|done]. repeat case_bool_decide; try done.
  apply IH. lia.
Qed.

(** What [Atoi] returns is a 64-bit [int]. *)
Lemma Atoi_range s : - 2 ^ 63 ≤ (strconv.Atoi s).1 ≤ 2 ^ 63 - 1.
Proof.
  assert (∀ neg un, 0 ≤ un →
            - 2 ^ 63 ≤ (strconv.clamp neg un).1 ≤ 2 ^ 63 - 1) as Hclamp.
  { intros neg un Hun. unfold strconv.clamp.
    destruct neg; cbn [negb andb]; repeat case_bool_decide; cbn [fst]; lia. }
  unfold strconv.Atoi. destruct s as [|c s]; [cbn; lia|]. cbn zeta.
  generalize (bool_decide (c = "-"%char)). intros neg.
  generalize (if neg || bool_decide (c = "+"%char) then s else String c s).
  intros [|c' body]; [cbn; lia|].
  destruct (strconv.digits (String c' body) 0) as [| |un] eqn:Hd.
  - cbn. lia.
  - apply Hclamp. by vm_compute.
  - apply Hclamp. by eapply digits_nonneg.
Qed.

(** An index within 0..3 comes from a button value that parses to 1..4: the
    wrap-around at the smallest [int] gives the largest one, which is out of
    range as well. *)
Lemma targetIndex_inv value :
  0 ≤ targetIndex value < 4 → 1 ≤ (strconv.Atoi value).1 ≤ 4.
Proof.
  unfold targetIndex, wrapInt. cbn zeta.
  pose proof (Atoi_range value) as Hrange.
  destruct (decide ((strconv.Atoi value).1 = - 2 ^ 63)) as [->|Hne].
  { by vm_compute; intros [_ ?]. }
  rewrite Z.mod_small by lia. lia.
Qed.

(** X9.  The error of [strconv.Atoi] is discarded, so a button value that is
    not a number, or a number other than 1, 2, 3 or 4, reaches
    [updateGroups] as an index outside 0..3: a verified block-action
    request with such a value makes [ModalHandler] panic, before any call
    on the Slack client and without a status written. *)
Theorem block_action_panics_on_bad_value
    (blockActions viewSubmission : string) (apiFails : ApiCall → bool) r i :
  verified r = true → parsed r = Some i → Type_ i = blockActions →
  (∀ a, BlockActions i !! 0%nat = Some a →
        ¬ (1 ≤ (strconv.Atoi (Value a)).1 ≤ 4)) →
  ModalHandler blockActions viewSubmission apiFails r = Panicked [].
Proof.
  intros Hv Hp Ht Hbad. unfold ModalHandler.
  rewrite Hv, Hp, Ht, String.eqb_refl. cbn [negb].
  destruct (updatedBlocks i) as [blocks'|] eqn:Hupd; [|done]. exfalso.
  apply updatedBlocks_inv in Hupd
    as (a & text & f0 & f1 & f2 & f3 & f4 & f5 & f6 & f7 & rest
        & t1 & t3 & t5 & t7 & Ha & _ & _ & Hindex & _).
  apply (Hbad a Ha). by apply targetIndex_inv.
Qed.

Lemma block_action_panics_on_bad_value_witness :
  ModalHandler "block_actions" "view_submission" (λ _, false)
    {| verified := true;
       parsed := Some (clickOn "U1" "five"
                         (pollMessage (emptySubmission "U9")).2) |}
  = Panicked [].
Proof.
  apply block_action_panics_on_bad_value
    with (i := clickOn "U1" "five" (pollMessage (emptySubmission "U9")).2);
    [reflexivity..|].
  intros a [= <-]. vm_compute. by intros [? _].
Defined.

(** ** A poll from its posting through any number of clicks *)

(** The mention [ModalHandler] builds for the clicking user. *)
Definition mention (userID : string) : string := "<@" +:+ userID +:+ ">".

(** The four group texts of a poll message, read the way the block-action
    branch reads them. *)
Definition groupTextsOf (blocks : list Block) : option (list string) :=
  '(_, fields) ← sectionAt blocks 2;
  readFields fields [1; 3; 5; 7] [].

(** A sequence of clicks, each a user id and a button value.  Slack sends
    with every click the blocks of the message as they are, and the update
    each click ends with replaces them. *)
Fixpoint clickAll (clicks : list (string * string)) (blocks : list Block)
    : option (list Block) :=
  match clicks with
  | [] => Some blocks
  | (userID, value) :: rest =>
      blocks ← updatedBlocks (clickOn userID value blocks);
      clickAll rest blocks
  end.

(** The same clicks as claim events on the group texts. *)
Definition eventsOf (clicks : list (string * string)) : list ClaimEvent :=
  (λ c, {| claimant := mention c.1; target := targetIndex c.2 |}) <$> clicks.

(** A message of the form the view-submission branch posts: header, action
    block, and a section block of four labels and four group texts. *)
Definition pollShape (header action : Block) (text : option TextBlockObject)
    (l0 l2 l4 l6 : TextBlockObject) (blocks : list Block)
    (groups : list string) : Prop :=
  ∃ f1 f3 f5 f7,
    blocks = [header; action;
              SectionBlock text [l0; f1; l2; f3; l4; f5; l6; f7]]
    ∧ groups = [Text f1; Text f3; Text f5; Text f7].

Section poll.

Implicit Types (userID value : string) (blocks : list Block).
Implicit Types (groups : list string) (clicks : list (string * string)).

Lemma targetIndex_button value :
  value ∈ ["1"; "2"; "3"; "4"] → 0 ≤ targetIndex value < 4.
Proof.
  intros H. repeat (apply elem_of_cons in H as [->|H]; [by vm_compute|]).
  by apply elem_of_nil in H.
Qed.

Lemma Contains_mention userID :
  Contains (mention userID) ", " = Contains userID ", ".
Proof.
  unfold mention. rewrite !append_cons, append_nil_l. cbn [Contains].
  rewrite !prefix_cons.
  destruct (ascii_dec "," "<") as [|_]; [done|].
  destruct (ascii_dec "," "@") as [|_]; [done|]. cbn [orb].
  induction userID as [|c s IH].
  - rewrite append_nil_l. cbn [Contains]. rewrite !prefix_cons.
    by destruct (ascii_dec "," ">").
  - rewrite append_cons. cbn [Contains]. rewrite IH. f_equal.
    rewrite !prefix_cons. destruct (ascii_dec "," c); [|done].
    destruct s as [|c' s].
    + rewrite append_nil_l, prefix_cons. by destruct (ascii_dec " " ">").
    + by rewrite append_cons, !prefix_cons, !prefix_nil.
Qed.

Lemma mention_not_sentinel userID : mention userID ≠ ":".
Proof. unfold mention. by rewrite append_cons. Qed.

(** One click keeps the form of the message and acts on its group texts as
    [updateGroups] does. *)
Lemma pollShape_click header action text l0 l2 l4 l6 blocks groups
    userID value groups' :
  pollShape header action text l0 l2 l4 l6 blocks groups →
  updateGroups (mention userID) (targetIndex value) groups = Some groups' →
  ∃ blocks',
    updatedBlocks (clickOn userID value blocks) = Some blocks'
    ∧ pollShape header action text l0 l2 l4 l6 blocks' groups'.
Proof.
  intros (f1 & f3 & f5 & f7 & -> & ->) Hupd.
  destruct (updateGroups_Some_inv _ _ [Text f1; Text f3; Text f5; Text f7] _
              eq_refl Hupd) as [_ Hlen].
  destruct groups' as [|t1 [|t3 [|t5 [|t7 [|]]]]]; try done.
  unfold updatedBlocks.
  change (index_get (BlockActions (clickOn userID value _)) 0)
    with (Some {| Value := value; SelectedConversation := "" |}).
  cbn [mbind option_bind MessageBlocks clickOn UserID Value].
  change (sectionAt _ 2)
    with (Some (text, [l0; f1; l2; f3; l4; f5; l6; f7])).
  cbn [mbind option_bind].
  change (readFields _ [1; 3; 5; 7] [])
    with (Some [Text f1; Text f3; Text f5; Text f7]).
  cbn [mbind option_bind]. unfold mention in Hupd. rewrite Hupd.
  cbn [mbind option_bind]. rewrite writeFields_eight.
  cbn [mbind option_bind]. eexists. split; [reflexivity|].
  by eexists _, _, _, _.
Qed.

Lemma pollShape_groupTextsOf header action text l0 l2 l4 l6 blocks groups :
  pollShape header action text l0 l2 l4 l6 blocks groups →
  groupTextsOf blocks = Some groups
  ∧ blocks !! 0%nat = Some header ∧ blocks !! 1%nat = Some action
  ∧ length blocks = 3%nat.
Proof. by intros (f1 & f3 & f5 & f7 & -> & ->). Qed.

(** Any number of clicks with button values of the poll: the handler does
    not panic, and the group texts follow the claim events. *)
Lemma clickAll_pollShape header action text l0 l2 l4 l6 clicks blocks groups :
  pollShape header action text l0 l2 l4 l6 blocks groups →
  length groups = 4%nat →
  Forall (λ c, c.2 ∈ ["1"; "2"; "3"; "4"]) clicks →
  ∃ blocks' groups',
    clickAll clicks blocks = Some blocks'
    ∧ applyClaims (eventsOf clicks) groups = Some groups'
    ∧ pollShape header action text l0 l2 l4 l6 blocks' groups'.
Proof.
  revert blocks groups.
  induction clicks as [|[userID value] clicks IH];
    intros blocks groups Hshape Hlen Hvalues.
  { by exists blocks, groups. }
  apply Forall_cons in Hvalues as [Hvalue Hvalues]. cbn [snd] in Hvalue.
  destruct (updateGroups_total (mention userID) (targetIndex value) groups)
    as (groups1 & Hupd & Hlen1); [done|by apply targetIndex_button|].
  destruct (pollShape_click _ _ _ _ _ _ _ _ _ userID value _ Hshape Hupd)
    as (blocks1 & Hclick & Hshape1).
  destruct (IH blocks1 groups1 Hshape1 Hlen1 Hvalues)
    as (blocks' & groups' & Hrun & Happly & Hshape').
  exists blocks', groups'. cbn [clickAll eventsOf fmap list_fmap applyClaims].
  cbn [claimant target fst snd]. rewrite Hclick, Hupd. by cbn [mbind option_bind].
Qed.

End poll.

(** X10.  A poll can be clicked for ever.  Start from the message the
    view-submission branch posts for any submitted form, and let any users
    click buttons of that message any number of times, the message being
    updated after every click.  The block-action branch never panics; the
    message keeps its three blocks, with header and buttons as posted; its
    four group texts are what the same sequence of [updateGroups] calls
    gives from four sentinels; and when no user id contains the separator,
    every mention stands in at most one of the four groups. *)
Theorem posted_poll_survives_clicks submission clicks :
  Forall (λ c, c.2 ∈ ["1"; "2"; "3"; "4"]) clicks →
  ∃ blocks groups,
    clickAll clicks (pollMessage submission).2 = Some blocks
    ∧ groupTextsOf blocks = Some groups
    ∧ applyClaims (eventsOf clicks) emptyPoll = Some groups
    ∧ length blocks = 3%nat
    ∧ blocks !! 0%nat = (pollMessage submission).2 !! 0%nat
    ∧ blocks !! 1%nat = (pollMessage submission).2 !! 1%nat
    ∧ (Forall (λ c, Contains c.1 ", " = false) clicks →
       atMostOneGroup groups).
Proof.
  intros Hvalues.
  assert (∃ header action text l0 l2 l4 l6,
            pollShape header action text l0 l2 l4 l6
              (pollMessage submission).2 emptyPoll)
    as (header & action & text & l0 & l2 & l4 & l6 & Hshape0).
  { do 7 eexists. eexists _, _, _, _. split; reflexivity. }
  destruct (clickAll_pollShape _ _ _ _ _ _ _ clicks _ _ Hshape0 eq_refl Hvalues)
    as (blocks & groups & Hrun & Happly & Hshape).
  apply pollShape_groupTextsOf in Hshape as (Htexts & H0 & H1 & Hlen).
  apply pollShape_groupTextsOf in Hshape0 as (_ & H0' & H1' & _).
  exists blocks, groups. do 4 (split; [done|]).
  split; [congruence|]. split; [congruence|].
  intros Hids.
  destruct (membershipInv_applyClaims (eventsOf clicks) emptyPoll)
    as (groups' & Happly' & Hinv).
  - apply membershipInv_emptyPoll.
  - unfold eventsOf. apply Forall_fmap.
    apply Forall_forall. intros [userID value] Hin.
    rewrite Forall_forall in Hvalues, Hids.
    specialize (Hvalues _ Hin). specialize (Hids _ Hin).
    cbn [fst snd] in *. split; [by apply targetIndex_button|].
    split; [apply mention_not_sentinel|]. cbn [claimant].
    by rewrite Contains_mention.
  - apply membershipInv_atMostOneGroup. congruence.
Qed.

Lemma posted_poll_survives_clicks_witness :
  ∃ blocks groups,
    clickAll [("U1", "2"); ("U2", "2"); ("U1", "4"); ("U2", "2")]
      (pollMessage (emptySubmission "U9")).2 = Some blocks
    ∧ groupTextsOf blocks = Some groups
    ∧ applyClaims
        (eventsOf [("U1", "2"); ("U2", "2"); ("U1", "4"); ("U2", "2")])
        emptyPoll = Some groups
    ∧ length blocks = 3%nat
    ∧ blocks !! 0%nat = (pollMessage (emptySubmission "U9")).2 !! 0%nat
    ∧ blocks !! 1%nat = (pollMessage (emptySubmission "U9")).2 !! 1%nat
    ∧ (Forall (λ c, Contains c.1 ", " = false)
         [("U1", "2"); ("U2", "2"); ("U1", "4"); ("U2", "2")] →
       atMostOneGroup groups).
Proof.
  apply posted_poll_survives_clicks.
  repeat constructor; cbn [snd]; set_solver.
Defined.

(** ** From the form to the posted poll *)

Definition elementActionID (e : InputElement) : string :=
  match e with
  | PlainTextInput _ actionID => actionID
  | ConversationsSelect _ actionID _ => actionID
  end.

(** What Slack hands back for a submitted form: the answer to every input
    block, filed under the block id and then under the action id of the
    block's element.  This is the behaviour of the platform, not code of
    the program. *)
Definition submittedValues (view : ModalViewRequest)
    (answers : list BlockAction) : gmap string (gmap string BlockAction) :=
  foldr (λ entry values,
           match entry.1 with
           | InputBlock blockID _ element =>
               <[blockID:=<[elementActionID element:=entry.2]>
                            (default ∅ (values !! blockID))]> values
           | _ => values
           end)
        ∅ (zip (Blocks view) answers).

(** X11.  The form and the reader of its answers agree on the identifiers.
    When the values of a submission are the answers to the six fields of
    the form [generateModalRequest] builds, in the order of the form, the
    posted poll has the first answer as its header, the next four as the
    labels of its buttons and of its slots, and goes to the conversation of
    the sixth answer, or to the submitting user when none was selected.
    The buttons carry the values "1" to "4", and every slot starts as the
    sentinel. *)
Theorem form_answers_reach_the_poll i question c1 c2 c3 c4 channel :
  ViewValues i
  = submittedValues generateModalRequest [question; c1; c2; c3; c4; channel] →
  pollMessage i
  = (if String.eqb (SelectedConversation channel) ""
     then UserID i else SelectedConversation channel,
     let label c := NewTextBlockObject "plain_text" (Value c) false false in
     let slot := NewTextBlockObject "mrkdwn" ":" false false in
     [ SectionBlock
         (Some (NewTextBlockObject "plain_text" (Value question) true false)) [];
       ActionBlock ""
         [ NewButtonBlockElement "actionID1" "1" (label c1);
           NewButtonBlockElement "actionID2" "2" (label c2);
           NewButtonBlockElement "actionID3" "3" (label c3);
           NewButtonBlockElement "actionID4" "4" (label c4) ];
       SectionBlock None
         [ label c1; slot; label c2; slot; label c3; slot; label c4; slot ] ]).
Proof.
  intros Hvalues.
  assert (valueAt (ViewValues i) "question" "question" = question
          ∧ valueAt (ViewValues i) "choice1" "choice1" = c1
          ∧ valueAt (ViewValues i) "choice2" "choice2" = c2
          ∧ valueAt (ViewValues i) "choice3" "choice3" = c3
          ∧ valueAt (ViewValues i) "choice4" "choice4" = c4
          ∧ valueAt (ViewValues i) "channel" "channelActionID" = channel)
    as (Hq & H1 & H2 & H3 & H4 & Hc).
  { rewrite Hvalues. by vm_compute. }
  unfold pollMessage. cbn [mbind list_bind fmap list_fmap app].
  change ("choice" +:+ "1") with "choice1".
  change ("choice" +:+ "2") with "choice2".
  change ("choice" +:+ "3") with "choice3".
  change ("choice" +:+ "4") with "choice4".
  by rewrite Hq, H1, H2, H3, H4, Hc.
Qed.

(** A submitted lunch poll without a selected conversation. *)
Definition lunchSubmission : InteractionCallback :=
  {| Type_ := "view_submission"; UserID := "U1"; ChannelID := "";
     MessageTimestamp := ""; BlockActions := []; MessageBlocks := [];
     ViewValues :=
       submittedValues generateModalRequest
         [ {| Value := "Lunch?"; SelectedConversation := "" |};
           {| Value := "12:00"; SelectedConversation := "" |};
           {| Value := "12:30"; SelectedConversation := "" |};
           {| Value := "13:00"; SelectedConversation := "" |};
           {| Value := "13:30"; SelectedConversation := "" |};
           {| Value := ""; SelectedConversation := "" |} ] |}.

Lemma form_answers_reach_the_poll_witness :
  pollMessage lunchSubmission
  = ("U1",
     [ SectionBlock
         (Some (NewTextBlockObject "plain_text" "Lunch?" true false)) [];
       ActionBlock ""
         [ NewButtonBlockElement "actionID1" "1"
             (NewTextBlockObject "plain_text" "12:00" false false);
           NewButtonBlockElement "actionID2" "2"
             (NewTextBlockObject "plain_text" "12:30" false false);
           NewButtonBlockElement "actionID3" "3"
             (NewTextBlockObject "plain_text" "13:00" false false);
           NewButtonBlockElement "actionID4" "4"
             (NewTextBlockObject "plain_text" "13:30" false false) ];
       SectionBlock None
         [ NewTextBlockObject "plain_text" "12:00" false false;
           NewTextBlockObject "mrkdwn" ":" false false;
           NewTextBlockObject "plain_text" "12:30" false false;
           NewTextBlockObject "mrkdwn" ":" false false;
           NewTextBlockObject "plain_text" "13:00" false false;
           NewTextBlockObject "mrkdwn" ":" false false;
           NewTextBlockObject "plain_text" "13:30" false false;
           NewTextBlockObject "mrkdwn" ":" false false ] ]).
Proof.
  exact (form_answers_reach_the_poll lunchSubmission
           {| Value := "Lunch?"; SelectedConversation := "" |}
           {| Value := "12:00"; SelectedConversation := "" |}
           {| Value := "12:30"; SelectedConversation := "" |}
           {| Value := "13:00"; SelectedConversation := "" |}
           {| Value := "13:30"; SelectedConversation := "" |}
           {| Value := ""; SelectedConversation := "" |} eq_refl).
Defined.

(** ** The socket-mode variant of the interaction handler *)

(** The part of [github.com/slack-go/slack/socketmode] the variant of
    [main.go] uses for interactions. *)
Module socketmode.

(** The dynamic type of [evt.Data]. *)
Inductive EventData :=
  | InteractionData (callback : InteractionCallback)
  | SlashData (cmd : SlashCommand)
  | OtherData.

(** An event: its data and the request to acknowledge (an envelope id
    here). *)
Record Event := { Data : EventData; Request : string }.

(** What a socket-mode handler does on the two clients. *)
Inductive Effect :=
  | Ack (request : string)
  | Call (c : ApiCall).

Inductive Outcome :=
  | Panicked (effects : list Effect)
  | Returned (effects : list Effect).

End socketmode.

(** [ModalSocketHandler]: the type assertion on [evt.Data], the
    acknowledgement, and then the switch of [ModalHandler], with the same
    two branches; errors of the Slack API are logged or dropped. *)
Definition ModalSocketHandler
    (InteractionTypeBlockActions InteractionTypeViewSubmission : string)
    (evt : socketmode.Event) : socketmode.Outcome :=
  match socketmode.Data evt with
  | socketmode.InteractionData callback =>
      let ack := socketmode.Ack (socketmode.Request evt) in
      if String.eqb (Type_ callback) InteractionTypeBlockActions then
        match updatedBlocks callback with
        | None => socketmode.Panicked [ack]
        | Some blocks =>
            socketmode.Returned
              [ack;
               socketmode.Call
                 (UpdateMessage (ChannelID callback)
                    (MessageTimestamp callback) blocks)]
        end
      else if String.eqb (Type_ callback) InteractionTypeViewSubmission then
        let '(channel, blocks) := pollMessage callback in
        socketmode.Returned [ack; socketmode.Call (PostMessage channel blocks)]
      else socketmode.Returned [ack]
  | _ => socketmode.Returned []
  end.

(** X12.  The socket-mode handler and the HTTP handler are two fronts of the
    same core.  For every interaction payload the socket-mode handler
    acknowledges the event first and then makes exactly the calls on the
    Slack client that [ModalHandler] makes for a verified request with that
    payload; it panics on the payloads on which [ModalHandler] panics, and
    then the acknowledgement is already out. *)
Theorem socket_handler_same_calls
    (blockActions viewSubmission : string) (apiFails : ApiCall → bool)
    callback request :
  match ModalSocketHandler blockActions viewSubmission
          {| socketmode.Data := socketmode.InteractionData callback;
             socketmode.Request := request |},
        ModalHandler blockActions viewSubmission apiFails
          {| verified := true; parsed := Some callback |}
  with
  | socketmode.Panicked effects, Panicked cs =>
      effects = [socketmode.Ack request] ∧ cs = []
  | socketmode.Returned effects, Returned _ cs =>
      effects = socketmode.Ack request :: (socketmode.Call <$> cs)
  | _, _ => False
  end.
Proof.
  unfold ModalSocketHandler, ModalHandler.
  cbn [socketmode.Data socketmode.Request verified parsed negb].
  destruct (String.eqb (Type_ callback) blockActions).
  - destruct (updatedBlocks callback) as [blocks|]; [|done].
    by destruct (apiFails _).
  - destruct (String.eqb (Type_ callback) viewSubmission); [|done].
    destruct (pollMessage callback) as [channel blocks].
    by destruct (apiFails _).
Qed.

(** ** What the HTTP handlers never do *)

(** X13.  Neither HTTP handler calls the Slack client for a request that
    fails verification or does not parse: both answer 401 and do nothing.
    [SlashHandler] never panics, makes at most one call, and that call is
    the opening of the form, answered with 200.  [ModalHandler] makes at
    most one call, never opens a view, and answers 401 exactly when that
    call fails and 200 when it succeeds; when it panics, no call was
    made. *)
Theorem handlers_call_discipline
    (blockActions viewSubmission : string) (apiFails : ApiCall → bool) :
  (∀ r, verified r = false ∨ parsed r = None →
        SlashHandler r = Returned http.StatusUnauthorized [])
  ∧ (∀ r, verified r = false ∨ parsed r = None →
          ModalHandler blockActions viewSubmission apiFails r
          = Returned http.StatusUnauthorized [])
  ∧ (∀ r, ∃ status cs,
        SlashHandler r = Returned status cs
        ∧ (cs = []
           ∨ ∃ trigger, cs = [OpenView trigger generateModalRequest]
                        ∧ status = http.StatusOK))
  ∧ (∀ r,
       match ModalHandler blockActions viewSubmission apiFails r with
       | Panicked cs => cs = []
       | Returned status cs =>
           cs = []
           ∨ ∃ c, cs = [c]
                  ∧ match c with OpenView _ _ => False | _ => True end
                  ∧ status = (if apiFails c then http.StatusUnauthorized
                              else http.StatusOK)
       end).
Proof.
  split; [|split; [|split]].
  - intros r [Hv|Hp]; unfold SlashHandler.
    + by rewrite Hv.
    + rewrite Hp. by destruct (verified r).
  - intros r [Hv|Hp]; unfold ModalHandler.
    + by rewrite Hv.
    + rewrite Hp. by destruct (verified r).
  - intros r. unfold SlashHandler.
    destruct (verified r); [|by eexists _, _; split; [|left]].
    destruct (parsed r) as [s|]; [|by eexists _, _; split; [|left]].
    cbn [negb]. destruct (String.eqb (Command s) "/poll").
    + eexists _, _. split; [done|]. right. by eexists.
    + eexists _, _. split; [done|]. by left.
  - intros r. unfold ModalHandler.
    destruct (verified r); [|by left].
    destruct (parsed r) as [i|]; [|by left]. cbn [negb].
    destruct (String.eqb (Type_ i) blockActions).
    + destruct (updatedBlocks i) as [blocks|]; [|done].
      destruct (apiFails _) eqn:Hf; right; eexists; by rewrite Hf.
    + destruct (String.eqb (Type_ i) viewSubmission); [|by left].
      destruct (pollMessage i) as [channel blocks].
      destruct (apiFails _) eqn:Hf; right; eexists; by rewrite Hf.
Qed.

Lemma handlers_call_discipline_witness :
  SlashHandler {| verified := false;
                  parsed := Some {| Command := "/poll"; TriggerID := "T1" |} |}
  = Returned http.StatusUnauthorized []
  ∧ ModalHandler "block_actions" "view_submission" (λ _, false)
      {| verified := true; parsed := None |}
    = Returned http.StatusUnauthorized [].
Proof.
  split.
  - apply (proj1 (handlers_call_discipline "" "" (λ _, false))). by left.
  - apply (proj1 (proj2 (handlers_call_discipline _ _ _))). by right.
Defined.

(** ** Start-up *)

(** How [main] ends its reading of the environment: with [log.Fatalln], or
    by serving HTTP on an address with an API key and a signing secret, or
    by running the socket-mode event loop with an API key and an app
    token. *)
Inductive Startup :=
  | Fatal (message : string)
  | ServeHTTP (addr apiKey signingSecret : string)
  | SocketMode (apiKey appToken : string).

(** [os.LookupEnv] is the lookup in the environment; [os.Getenv] gives the
    empty string for a variable that is not set. *)
Definition Getenv (env : gmap string string) (key : string) : string :=
  default "" (env !! key).

(** [main] of [main.go], up to the call of [http.ListenAndServe]. *)
Definition main (env : gmap string string) : Startup :=
  let port := default "3000" (env !! "PORT") in
  match env !! "API_KEY" with
  | None => Fatal "No API_KEY set"
  | Some apiKey =>
      match env !! "SIGNING_SECRET" with
      | None => Fatal "No SIGNING_SECRET set"
      | Some signingSecret => ServeHTTP (":" +:+ port) apiKey signingSecret
      end
  end.

(** [main] of the variant with socket mode, up to the call of
    [http.ListenAndServe] or of [RunEventLoop]. *)
Definition mainWithSocketMode (env : gmap string string) : Startup :=
  let port := default "3000" (env !! "PORT") in
  match env !! "API_KEY" with
  | None => Fatal "No API_KEY set"
  | Some apiKey =>
      let appToken := Getenv env "APP_TOKEN" in
      let signingSecret := Getenv env "SIGNING_SECRET" in
      if String.eqb appToken "" && String.eqb signingSecret "" then
        Fatal "One of APP_TOKEN or SIGNING_SECRET was not set"
      else if negb (String.eqb signingSecret "") then
        ServeHTTP (":" +:+ port) apiKey signingSecret
      else SocketMode apiKey appToken
  end.

(** X14.  The two variants of [main] read the environment differently.
    Whenever the variant with socket mode serves HTTP, [main.go] serves
    HTTP too, on the same address and with the same key and secret, and
    the secret is not empty.  The converse fails in one case only:
    [main.go] takes a signing secret that is set but empty, and serves
    HTTP with it, where the variant treats it as not set.  The variant
    enters socket mode exactly when the secret is empty or unset and the
    app token is not; a non-empty secret wins over an app token. *)
Theorem startup_variants env :
  (∀ addr apiKey secret,
     mainWithSocketMode env = ServeHTTP addr apiKey secret →
     main env = ServeHTTP addr apiKey secret ∧ secret ≠ "")
  ∧ (∀ addr apiKey secret,
       main env = ServeHTTP addr apiKey secret →
       secret ≠ "" →
       mainWithSocketMode env = ServeHTTP addr apiKey secret)
  ∧ (∀ addr apiKey,
       main env = ServeHTTP addr apiKey "" →
       ∀ addr' apiKey' secret',
         mainWithSocketMode env ≠ ServeHTTP addr' apiKey' secret')
  ∧ (∀ apiKey appToken,
       mainWithSocketMode env = SocketMode apiKey appToken ↔
       env !! "API_KEY" = Some apiKey
       ∧ Getenv env "SIGNING_SECRET" = ""
       ∧ Getenv env "APP_TOKEN" = appToken ∧ appToken ≠ "").
Proof.
  unfold main, mainWithSocketMode, Getenv.
  destruct (env !! "API_KEY") as [key|];
    destruct (env !! "SIGNING_SECRET") as [secret|];
    destruct (env !! "APP_TOKEN") as [token|];
    unfold default, from_option, id;
    repeat match goal with
           | |- context [String.eqb ?s ""] => destruct (String.eqb_spec s "")
           end;
    cbn [andb negb]; subst; split_and!; intros; simplify_eq; try done;
    split; intros; destruct_and?; simplify_eq; done.
Qed.

Lemma startup_variants_witness :
  main {["API_KEY" := "xoxb"; "SIGNING_SECRET" := "s3"; "APP_TOKEN" := "xapp"]}
  = ServeHTTP ":3000" "xoxb" "s3"
  ∧ "s3" ≠ "".
Proof.
  apply (proj1 (startup_variants _)). by vm_compute.
Defined.

(** ** Well-formedness is kept *)

Section well_formed_kept.

Implicit Types (user g : string) (groups : list string) (index : Z) (k : nat).

Lemma wfGroup_of_tokens g : Forall (λ t, t ≠ "") (tokens g) → wfGroup g = true.
Proof.
  unfold wfGroup. rewrite forallb_forall, Forall_forall.
  intros H t Ht%list_elem_of_In. specialize (H t Ht).
  by destruct (String.eqb_spec t "").
Qed.

Lemma wfGroup_appendUser g user :
  wfGroup g = true → user ≠ "" → Contains user ", " = false →
  wfGroup (appendUser g user) = true.
Proof.
  intros Hg Hu Hfree. apply wfGroup_of_tokens.
  rewrite tokens_appendUser, (Split_no_sep user) by done.
  apply Forall_app. split; [|by repeat constructor].
  destruct (String.eqb g ":"); [done|by apply wfGroup_tokens].
Qed.

Lemma wfGroup_rejoin_removed g user pre post :
  wfGroup g = true → tokens g = pre ++ user :: post →
  wfGroup (rejoin (pre ++ post)) = true.
Proof.
  intros Hwf Hsplit.
  pose proof (wfGroup_tokens g Hwf) as Hne. rewrite Hsplit in Hne.
  apply Forall_app in Hne as [Hnpre [_ Hnpost]%Forall_cons].
  pose proof (Split_sep_free g) as Hfree. rewrite Hsplit in Hfree.
  apply Forall_app in Hfree as [Hfpre [_ Hfpost]%Forall_cons].
  destruct (tokens_rejoin (pre ++ post)) as [->|Htok];
    [by apply Forall_app|done|].
  apply wfGroup_of_tokens. rewrite Htok. by apply Forall_app.
Qed.

(** One click on four well-formed groups gives four well-formed groups. *)
Lemma wfGroup_step user index groups :
  length groups = 4%nat → 0 ≤ index < 4 →
  Forall (λ g, wfGroup g = true) groups →
  user ≠ "" → Contains user ", " = false →
  ∃ groups', updateGroups user index groups = Some groups'
             ∧ Forall (λ g, wfGroup g = true) groups'.
Proof.
  intros Hlen Hindex Hwf Hu Hfree.
  assert (∀ j g, groups !! j = Some g → wfGroup g = true) as Hwf'
    by (by apply Forall_lookup).
  destruct (absent_or_present user groups)
    as [Hall|(k & gk & Hk & Hgk & Hlater)].
  - destruct (lookup_lt_is_Some_2 groups (Z.to_nat index)) as [t Ht]; [lia|].
    rewrite updateGroups_absent by done.
    assert (index_get groups index = Some t) as ->
      by (apply index_get_Some; split; [lia|done]).
    cbn [mbind option_bind]. rewrite index_set_Some by lia.
    eexists. split; [done|]. apply Forall_insert; [done|].
    apply wfGroup_appendUser; [by eapply Hwf'|done..].
  - pose proof (lookup_lt_Some _ _ _ Hk) as Hlt.
    destruct (contains_first _ _ Hgk) as (pre & post & Hsplit & Hpre).
    rewrite (updateGroups_present user index groups k gk) by done.
    rewrite Hsplit, remove_first by done. cbn [mbind option_bind].
    fold (rejoined groups k (pre ++ post)). cbn zeta.
    assert (Forall (λ g, wfGroup g = true) (rejoined groups k (pre ++ post)))
      as Hwf1.
    { apply Forall_lookup. intros j g Hg.
      destruct (decide (j = k)) as [->|Hj].
      - rewrite rejoined_lookup_eq in Hg by done. injection Hg as <-.
        eapply wfGroup_rejoin_removed; [by eapply Hwf'|done].
      - rewrite rejoined_lookup_wf in Hg by done. by eapply Hwf'. }
    case_bool_decide; [|by eexists].
    destruct (lookup_lt_is_Some_2 (rejoined groups k (pre ++ post))
                (Z.to_nat index)) as [t Ht]; [rewrite length_rejoined; lia|].
    assert (index_get (rejoined groups k (pre ++ post)) index = Some t) as ->
      by (apply index_get_Some; split; [lia|done]).
    cbn [mbind option_bind].
    rewrite index_set_Some by (rewrite length_rejoined; lia).
    eexists. split; [done|]. apply Forall_insert; [done|].
    apply wfGroup_appendUser; [|done..].
    rewrite Forall_lookup in Hwf1. by eapply Hwf1.
Qed.

End well_formed_kept.

(** X15.  What the claims call a well-formed input is what the code itself
    produces.  After any sequence of claim events from four sentinels,
    each with a valid index and a mention that is not empty, not the
    sentinel and without separator, the four groups are a well-formed input
    for the next click, whoever clicks and on whichever slot: four
    well-formed strings, none of them empty, in which the clicking user's
    mention stands at most once. *)
Theorem reachable_groups_well_formed events groups user index :
  Forall validClaim events →
  Forall (λ e, claimant e ≠ "") events →
  applyClaims events emptyPoll = Some groups →
  0 ≤ index < 4 → user ≠ ":" →
  wellFormed user index groups ∧ Forall (λ g, g ≠ "") groups.
Proof.
  intros Hvalid Hne Hrun Hindex Hu.
  assert (∀ start, length start = 4%nat →
            Forall (λ g, wfGroup g = true) start →
            applyClaims events start = Some groups →
            length groups = 4%nat ∧ Forall (λ g, wfGroup g = true) groups)
    as Hwf.
  { clear Hrun. induction events as [|e events IH]; intros start Hlen Hstart Hrun.
    { cbn in Hrun. by simplify_eq. }
    apply Forall_cons in Hvalid as [(Hi & _ & Hfree) Hvalid].
    apply Forall_cons in Hne as [He Hne].
    destruct (wfGroup_step (claimant e) (target e) start)
      as (start' & Hstep & Hstart'); [done..|].
    destruct (updateGroups_total (claimant e) (target e) start)
      as (start'' & Hstep' & Hlen'); [done..|].
    cbn [applyClaims] in Hrun. rewrite Hstep in Hrun.
    cbn [mbind option_bind] in Hrun.
    apply (IH Hvalid Hne start'); [congruence|done..]. }
  destruct (Hwf emptyPoll eq_refl) as [Hlen Hwfg];
    [by repeat constructor|done|].
  destruct (membershipInv_applyClaims events emptyPoll)
    as (groups' & Hrun' & _ & Hocc); [apply membershipInv_emptyPoll|done|].
  assert (groups' = groups) as -> by congruence.
  split.
  - repeat split; try done; try lia. by apply Hocc.
  - apply Forall_impl with (1 := Hwfg). apply wfGroup_not_empty.
Qed.

Lemma reachable_groups_well_formed_witness :
  wellFormed "<@U3>" 2 ["<@U2>"; ":"; "<@U1>"; ":"]
  ∧ Forall (λ g, g ≠ "") ["<@U2>"; ":"; "<@U1>"; ":"].
Proof.
  apply (reachable_groups_well_formed
           [ {| claimant := "<@U1>"; target := 0 |};
             {| claimant := "<@U2>"; target := 0 |};
             {| claimant := "<@U1>"; target := 2 |} ]);
    try reflexivity; try lia; try discriminate.
  - repeat constructor; cbn; try lia; discriminate.
  - repeat constructor; discriminate.
Defined.
